(** * SkillDiffuser: transcript loader and skill aggregator

    A shallow embedding of [backend/src/skilldiffuser.py]:
    - the Python [str] operations the loader relies on ([find], [in],
      [split], [replace], [strip]);
    - [load_transcriptions_from_file], from the text of the file on;
    - [SkillDiffuser.get_skill_summary].

    A Python [str] is a sequence of Unicode code points: a character is an
    [N] and a string a [list N].  A [dict] is a [gmap]; equality of maps is
    equality of Python dicts, which does not look at insertion order.  A
    Python exception ([KeyError], [IndexError], [ValueError]) is [None] in
    the [option] monad. *)

From Stdlib Require Import QArith Qabs.
From Stdlib Require Import Floats.SpecFloat.
From Stdlib Require Import String Ascii.
From stdpp Require Import base option list gmap.

Local Open Scope nat_scope.

(** ** Python loops and strings *)

(** A [for] loop whose body may raise, on the value the loop updates. *)
Fixpoint for_each {A B} (body : A → B → option A) (acc : A) (l : list B) : option A :=
  match l with
  | [] => Some acc
  | x :: l' => acc' ← body acc x; for_each body acc' l'
  end.

Module Str.

Abbreviation char := N (only parsing).
Abbreviation str := (list N) (only parsing).

(** A literal of the source, as code points. *)
Definition lit (s : string) : str :=
  (λ a, N_of_ascii a) <$> list_ascii_of_string s.

(** [str.isspace] on one character: the code points CPython lists in
    [_PyUnicode_IsWhitespace]. *)
Definition isspace (c : char) : bool :=
  ((9 <=? c) && (c <=? 13) || (28 <=? c) && (c <=? 32)
   || (c =? 133) || (c =? 160) || (c =? 5760)
   || (8192 <=? c) && (c <=? 8202)
   || (c =? 8232) || (c =? 8233) || (c =? 8239) || (c =? 8287)
   || (c =? 12288))%N.

(** A string of whitespace only (the empty one too). *)
Definition whitespace (s : str) : Prop := Forall (λ c, isspace c = true) s.

(** [s.startswith(p)] *)
Fixpoint startswith (p s : str) : bool :=
  match p, s with
  | [], _ => true
  | _ :: _, [] => false
  | a :: p', b :: s' => (a =? b)%N && startswith p' s'
  end.

(** [s.find(sub)]: the lowest index at which [sub] occurs; Python's [-1]
    is [None]. *)
Fixpoint find (sub s : str) : option nat :=
  if startswith sub s then Some 0
  else match s with
       | [] => None
       | _ :: t => S <$> find sub t
       end.

(** [first_at sub a]: in [a] followed by [sub], the first occurrence of
    [sub] is the one that follows [a]; so [a] is the text up to the next
    [sub]. *)
Definition first_at (sub a : str) : Prop := find sub (a ++ sub) = Some (length a).

#[global] Instance first_at_dec sub a : Decision (first_at sub a).
Proof. unfold first_at. apply _. Defined.

(** [sub in s] *)
Definition contains (sub s : str) : bool :=
  match find sub s with Some _ => true | None => false end.

(** The scan behind [s.split(sep, maxsplit)] for a non-empty [sep]: cut at
    the leftmost occurrence, go on after it, at most [maxsplit] times. *)
Fixpoint split_upto (sep : str) (maxsplit : nat) (s : str) : list str :=
  match maxsplit with
  | 0 => [s]
  | S k =>
      match find sep s with
      | None => [s]
      | Some i => take i s :: split_upto sep k (drop (i + length sep) s)
      end
  end.

(** [s.split(sep, maxsplit)]; [maxsplit = None] is Python's default [-1]
    (no limit: a string of length [n] has at most [n] occurrences of a
    non-empty separator).  An empty separator raises [ValueError]. *)
Definition split (sep s : str) (maxsplit : option nat) : option (list str) :=
  match sep with
  | [] => None
  | _ :: _ => Some (split_upto sep (default (length s) maxsplit) s)
  end.

(** The scan behind [s.replace(old, new)] for a non-empty [old]. *)
Fixpoint replace_upto (old new : str) (n : nat) (s : str) : str :=
  match n with
  | 0 => s
  | S k =>
      match find old s with
      | None => s
      | Some i => take i s ++ new ++ replace_upto old new k (drop (i + length old) s)
      end
  end.

(** [s.replace(old, new)]: every non-overlapping occurrence, left to
    right; an empty [old] matches before every character and at the end. *)
Definition replace (old new s : str) : str :=
  match old with
  | [] => new ++ (s ≫= λ c, c :: new)
  | _ :: _ => replace_upto old new (length s) s
  end.

(** Some lines of text, joined by newlines. *)
Definition NL : str := [10%N].

Definition lines (l : list str) : str :=
  match l with
  | [] => []
  | s :: l' => s ++ (l' ≫= λ t, NL ++ t)
  end.

(** [s.lstrip()], [s.rstrip()], [s.strip()] *)
Fixpoint lstrip (s : str) : str :=
  match s with
  | [] => []
  | c :: t => if isspace c then lstrip t else s
  end.

Definition rstrip (s : str) : str := reverse (lstrip (reverse s)).

Definition strip (s : str) : str := rstrip (lstrip s).

End Str.

(** ** The transcript loader *)

Module Loader.
Import Str.

(** One element of the returned list: the dict with keys ['call_id'] and
    ['transcript']. *)
Record TranscriptRecord := mkRecord {
  call_id : str;
  transcript : str
}.

Definition CALL_ID_MARKER : str := Eval cbv in lit "---CALL_ID:".
Definition END_MARKER : str := Eval cbv in lit "---END---".
Definition DASHES : str := Eval cbv in lit "---".

(** The body of the loop over the sections; [calls] is the list being
    appended to. *)
Definition parse_section (calls : list TranscriptRecord) (section : str)
  : option (list TranscriptRecord) :=
  if contains END_MARKER section then
    parts ← split DASHES section (Some 1);
    part0 ← parts !! 0;
    let call_id := strip part0 in
    transcript_part ← (if decide (1 < length parts) then parts !! 1 else Some []);
    let transcript := strip (replace END_MARKER [] transcript_part) in
    Some (calls ++ [mkRecord call_id transcript])
  else Some calls.

(** [load_transcriptions_from_file], from [content = f.read()] on. *)
Definition load_transcriptions_from_file (content : str) : option (list TranscriptRecord) :=
  call_sections ← split CALL_ID_MARKER content None;
  for_each parse_section [] (drop 1 call_sections).

(** *** The file format, for the statements

    The text of a file is some text [pre] followed by sections, each one
    behind an opening marker; a section runs to the next opening marker or
    to the end of the file. *)
Definition render (pre : str) (sections : list str) : str :=
  pre ++ (sections ≫= λ section, CALL_ID_MARKER ++ section).

(** The sections of a file, as the loader cuts them. *)
Definition sections_of (content : str) : list str :=
  drop 1 (split_upto CALL_ID_MARKER (length content) content).

(** The text of a section up to its first [---], and the text after it. *)
Definition id_text (section : str) : str :=
  match find DASHES section with
  | Some i => take i section
  | None => section
  end.

Definition body_text (section : str) : str :=
  match find DASHES section with
  | Some i => drop (i + length DASHES) section
  | None => []
  end.

(** What one section adds to the result, in closed form. *)
Definition section_records (section : str) : list TranscriptRecord :=
  if contains END_MARKER section
  then [mkRecord (strip (id_text section))
                 (strip (replace END_MARKER [] (body_text section)))]
  else [].

(** A section written as the format has it: identifier, [---], body,
    [---END---], and then the text [sect_trail] that follows the closing
    marker up to the next opening marker or the end of the file. *)
Record Sect := mkSect {
  sect_id : str;
  sect_body : str;
  sect_trail : str
}.

Definition sect_text (x : Sect) : str :=
  sect_id x ++ DASHES ++ sect_body x ++ END_MARKER ++ sect_trail x.

(** The identifier is the text up to the next [---], the body the text up
    to the next [---END---], and the section has no opening marker but the
    one before it. *)
Definition well_formed (x : Sect) : Prop :=
  first_at DASHES (sect_id x) ∧ first_at END_MARKER (sect_body x)
  ∧ find CALL_ID_MARKER (sect_text x) = None.

#[global] Instance well_formed_dec x : Decision (well_formed x).
Proof. unfold well_formed. apply _. Defined.

(** The record the format promises for a section. *)
Definition sect_record (x : Sect) : TranscriptRecord :=
  mkRecord (strip (sect_id x)) (strip (sect_body x)).

End Loader.

(** ** Python floats

    A Python [float] is a binary64 number, written as the Standard
    Library writes one: [S754_zero], or [S754_finite s m e] for the number
    [m * 2^e].  [a / b] on two integers is the binary64 number nearest to
    the quotient, a tie going to the even mantissa. *)

Module Float.
Local Open Scope Z_scope.

Abbreviation float := spec_float (only parsing).

Definition zero : float := S754_zero false.
Definition half : float := S754_finite false 4503599627370496 (-53).
Definition one : float := S754_finite false 4503599627370496 (-52).

(** The number a float stands for (0 for an infinity or a NaN, which no
    division of this file returns). *)
Definition float_value (x : float) : Q :=
  match x with
  | S754_finite s m e =>
      let v := if 0 <=? e then inject_Z (Z.pos m * 2 ^ e)
               else (Z.pos m # Z.to_pos (2 ^ (- e)))%Q in
      if s then Qopp v else v
  | _ => 0%Q
  end.

(** [a / b] divided by [2^e], as a fraction of two integers. *)
Definition scaled (a b e : Z) : Z * Z :=
  if 0 <=? e then (a, b * 2 ^ e) else (a * 2 ^ (- e), b).

(** The integer nearest to [num / den], the even one of two that are
    equally near. *)
Definition round_half_even (num den : Z) : Z :=
  let n := num / den in
  match 2 * (num mod den) ?= den with
  | Lt => n
  | Gt => n + 1
  | Eq => if Z.even n then n else n + 1
  end.

(** The exponent of the result: the one that puts the mantissa between
    [2^52] and [2^53], and not below that of the subnormal numbers. *)
Definition exponent (a b : Z) : Z :=
  let e1 := Z.log2 a - Z.log2 b - 52 in
  let '(num, den) := scaled a b e1 in
  Z.max (if 2 ^ 52 * den <=? num then e1 else e1 - 1) (-1074).

(** The quotient of two positive integers, rounded to binary64; an
    infinity when it is too large. *)
Definition rounded (a b : Z) : float :=
  if a =? 0 then zero else
  let e := exponent a b in
  let '(num, den) := scaled a b e in
  let m := round_half_even num den in
  let '(m, e) := if m =? 2 ^ 53 then (2 ^ 52, e + 1) else (m, e) in
  match m with
  | Zpos p => if e <=? 971 then S754_finite false p e else S754_infinity false
  | _ => zero
  end.

(** [a / b] on two integers that are not negative: [ZeroDivisionError]
    for [b = 0], [OverflowError] when the quotient is too large for a
    float. *)
Definition true_divide (a b : nat) : option float :=
  if decide (b = 0%nat) then None
  else match rounded (Z.of_nat a) (Z.of_nat b) with
       | S754_infinity _ => None
       | x => Some x
       end.

(** The same division as the Standard Library specifies it for two
    binary64 numbers, on the two integers as floats. *)
Definition SFdiv_integers (a b : Z) : float :=
  SFdiv 53 1024 (binary_normalize 53 1024 a 0 false) (binary_normalize 53 1024 b 0 false).

Definition same_float (x y : float) : bool :=
  match x, y with
  | S754_zero s, S754_zero t => Bool.eqb s t
  | S754_infinity s, S754_infinity t => Bool.eqb s t
  | S754_nan, S754_nan => true
  | S754_finite s m e, S754_finite t n f => Bool.eqb s t && Pos.eqb m n && Z.eqb e f
  | _, _ => false
  end.

(** Whether the two divisions agree on every [a / b] with
    [0 <= a <= b <= n], [1 <= b]. *)
Definition agree_up_to (n : nat) : bool :=
  forallb (λ b : nat,
             forallb (λ a : nat,
                        same_float (rounded (Z.of_nat a) (Z.of_nat b))
                                   (SFdiv_integers (Z.of_nat a) (Z.of_nat b)))
                     (seq 0 (S b)))
          (seq 1 n).

End Float.

(** ** The skill aggregator *)

Module Aggregator.
Import Str.

Record Skill := mkSkill {
  name : str;
  description : str;
  quote : str;
  timestamp : str;
  effectiveness : str
}.

Record CallAnalysis := mkCallAnalysis {
  call_id : str;
  skills : list Skill;
  overall_assessment : str;
  key_insights : list str
}.

(** The value under ['effectiveness_distribution']. *)
Record Distribution := mkDistribution {
  high : nat;
  medium : nat;
  low : nat
}.

(** One value of ['skill_statistics'].  ['avg_effectiveness'] is the
    float [high_count / counts]; the integer [0] of the [else], a branch
    no entry takes since every count is at least 1, is written as the
    float zero, which it equals. *)
Record SkillStatistic := mkSkillStatistic {
  frequency : nat;
  effectiveness_distribution : Distribution;
  avg_effectiveness : Float.float
}.

(** The returned dict. *)
Record SkillSummary := mkSkillSummary {
  total_calls_analyzed : nat;
  unique_skills_found : nat;
  skill_statistics : gmap str SkillStatistic
}.

Definition HIGH : str := Eval cbv in lit "high".
Definition MEDIUM : str := Eval cbv in lit "medium".
Definition LOW : str := Eval cbv in lit "low".

(** [values.count(x)] *)
Definition count (x : str) (values : list str) : nat :=
  length (filter (λ v, v = x) values).

(** The body of the inner loop, on the two dicts [skill_counts] and
    [skill_effectiveness]. *)
Definition record_skill (st : gmap str nat * gmap str (list str)) (skill : Skill)
  : option (gmap str nat * gmap str (list str)) :=
  let skill_name := name skill in
  let '(skill_counts, skill_effectiveness) :=
    match st.1 !! skill_name with
    | None => (<[skill_name := 0]> st.1, <[skill_name := []]> st.2)
    | Some _ => st
    end in
  counts ← skill_counts !! skill_name;
  let skill_counts := <[skill_name := counts + 1]> skill_counts in
  values ← skill_effectiveness !! skill_name;
  Some (skill_counts, <[skill_name := values ++ [effectiveness skill]]> skill_effectiveness).

(** The body of the outer loop. *)
Definition record_analysis (st : gmap str nat * gmap str (list str)) (analysis : CallAnalysis)
  : option (gmap str nat * gmap str (list str)) :=
  for_each record_skill st (skills analysis).

(** The body of the loop over [skill_counts.items()]. *)
Definition skill_stat (skill_effectiveness : gmap str (list str))
    (skill_stats : gmap str SkillStatistic) (item : str * nat)
  : option (gmap str SkillStatistic) :=
  let '(skill_name, counts) := item in
  effectiveness_values ← skill_effectiveness !! skill_name;
  let high_count := count HIGH effectiveness_values in
  let medium_count := count MEDIUM effectiveness_values in
  let low_count := count LOW effectiveness_values in
  avg_effectiveness ← (if decide (0 < counts)
                       then Float.true_divide high_count counts
                       else Some Float.zero);
  Some (<[skill_name :=
            {| frequency := counts;
               effectiveness_distribution :=
                 {| high := high_count; medium := medium_count; low := low_count |};
               avg_effectiveness := avg_effectiveness |}]> skill_stats).

Definition get_skill_summary (analyses : list CallAnalysis) : option SkillSummary :=
  '(skill_counts, skill_effectiveness) ← for_each record_analysis (∅, ∅) analyses;
  skill_stats ← for_each (skill_stat skill_effectiveness) ∅ (map_to_list skill_counts);
  Some {| total_calls_analyzed := length analyses;
          unique_skills_found := size skill_counts;
          skill_statistics := skill_stats |}.

(** *** For the statements *)

(** The [(analysis, skill)] pairs of the two loops, in their order. *)
Definition all_skills (analyses : list CallAnalysis) : list Skill :=
  analyses ≫= skills.

(** The Skill entries with that exact name. *)
Definition occurrences (skill_name : str) (entries : list Skill) : list Skill :=
  filter (λ skill, name skill = skill_name) entries.

(** How many entries have that exact effectiveness string. *)
Definition rated (label : str) (entries : list Skill) : nat :=
  length (filter (λ skill, effectiveness skill = label) entries).

Definition recognized (label : str) : Prop :=
  label = HIGH ∨ label = MEDIUM ∨ label = LOW.

#[global] Instance recognized_dec label : Decision (recognized label).
Proof. unfold recognized. apply _. Defined.

(** Scenario B of the specification: two calls, [Rapport] rated [high] and
    [Urgency] rated [medium] in the first, [Rapport] rated [low] in the
    second. *)
Definition scenario_B : list CallAnalysis :=
  [ mkCallAnalysis (lit "call1")
      [ mkSkill (lit "Rapport") [] [] [] (lit "high");
        mkSkill (lit "Urgency") [] [] [] (lit "medium") ] [] [];
    mkCallAnalysis (lit "call2")
      [ mkSkill (lit "Rapport") [] [] [] (lit "low") ] [] [] ].

(** The two dicts after the entries [entries] have been gone through. *)
Definition tallied (entries : list Skill) (st : gmap str nat * gmap str (list str)) : Prop :=
  ∀ n,
    st.1 !! n = (if decide (occurrences n entries = []) then None
                 else Some (length (occurrences n entries)))
    ∧ st.2 !! n = (if decide (occurrences n entries = []) then None
                   else Some (effectiveness <$> occurrences n entries)).

(** The value [skill_stat] stores for a skill, from its count and its list
    of effectiveness strings, when the division raises nothing. *)
Definition make_statistic (counts : nat) (effectiveness_values : list str)
  : option SkillStatistic :=
  avg_effectiveness ← (if decide (0 < counts)
                       then Float.true_divide (count HIGH effectiveness_values) counts
                       else Some Float.zero);
  Some {| frequency := counts;
          effectiveness_distribution :=
            {| high := count HIGH effectiveness_values;
               medium := count MEDIUM effectiveness_values;
               low := count LOW effectiveness_values |};
          avg_effectiveness := avg_effectiveness |}.

(** The statistic of a skill, from its occurrences. *)
Definition statistic_of (occ : list Skill) : SkillStatistic :=
  {| frequency := length occ;
     effectiveness_distribution :=
       {| high := rated HIGH occ; medium := rated MEDIUM occ; low := rated LOW occ |};
     avg_effectiveness :=
       if decide (0 < length occ)
       then Float.rounded (Z.of_nat (rated HIGH occ)) (Z.of_nat (length occ))
       else Float.zero |}.

End Aggregator.

(** ** Readings of a summary, for the statements *)

Module Summary.
Import Str Aggregator.

(** The frequency of a name in a summary; 0 for a name without an entry. *)
Definition frequency_of (summary : SkillSummary) (n : str) : nat :=
  from_option frequency 0 (skill_statistics summary !! n).

(** One bucket of a name in a summary; 0 for a name without an entry. *)
Definition bucket_of (bucket : Distribution → nat) (summary : SkillSummary) (n : str) : nat :=
  from_option (λ stat, bucket (effectiveness_distribution stat)) 0
              (skill_statistics summary !! n).

(** The frequencies of all the entries, added up. *)
Definition total_frequency (summary : SkillSummary) : nat :=
  sum_list_with (λ item : str * SkillStatistic, frequency item.2)
                (map_to_list (skill_statistics summary)).

End Summary.

(** ** [SkillDiffuser.analyze_multiple_calls]

    [analyze_call] asks a language model: it is taken as it comes, a step
    on the state of the world that returns an analysis or raises. *)

Module Batch.
Import Str Aggregator.

Definition CALL_ID_KEY : str := Eval cbv in lit "call_id".
Definition TRANSCRIPT_KEY : str := Eval cbv in lit "transcript".

Section Analyzer.
Context {World : Type}.
Variable analyze_call : str → str → World → option CallAnalysis * World.

(** The loop over [calls], with [results] the list being appended to.
    [call['call_id']] and [call['transcript']] are read, in that order,
    before [analyze_call] is entered. *)
Fixpoint analyze_loop (results : list CallAnalysis) (calls : list (gmap str str))
    (w : World) : option (list CallAnalysis) * World :=
  match calls with
  | [] => (Some results, w)
  | call :: calls' =>
      match call !! CALL_ID_KEY with
      | None => (None, w)
      | Some call_id =>
          match call !! TRANSCRIPT_KEY with
          | None => (None, w)
          | Some transcript =>
              match analyze_call call_id transcript w with
              | (None, w') => (None, w')
              | (Some analysis, w') => analyze_loop (results ++ [analysis]) calls' w'
              end
          end
      end
  end.

Definition analyze_multiple_calls (calls : list (gmap str str)) (w : World)
  : option (list CallAnalysis) * World :=
  analyze_loop [] calls w.

End Analyzer.

(** A stand-in for the language model, for the examples: the world is the
    number of requests made so far; an empty transcript raises, any other
    gives an analysis without skills. *)
Definition counting_analyze_call (call_id transcript : str) (w : nat)
  : option CallAnalysis * nat :=
  match transcript with
  | [] => (None, S w)
  | _ :: _ => (Some (mkCallAnalysis call_id [] [] []), S w)
  end.

(** The dict of a call with its two keys. *)
Definition call_dict (call_id transcript : str) : gmap str str :=
  {[ CALL_ID_KEY := call_id; TRANSCRIPT_KEY := transcript ]}.

End Batch.

(** ** [load_transcriptions_from_directory] of [analyze_calls.py]

    The file system is what [os.path.exists], [os.listdir], [os.path.join]
    and reading a text file answer; what the function prints is left
    out. *)

Module Directory.
Import Str Loader.

Definition TXT : str := Eval cbv in lit ".txt".

(** [s.endswith(suffix)] *)
Definition endswith (suffix s : str) : bool :=
  startswith (reverse suffix) (reverse s).

Section FileSystem.
(** [os.path.exists] *)
Variable path_exists : str → bool.
(** [os.listdir]; [None] when it raises. *)
Variable listdir : str → option (list str).
(** [os.path.join] *)
Variable join : str → str → str.
(** [open(path, 'r', encoding='utf-8')] and [f.read()]; [None] when one of
    them raises. *)
Variable read : str → option str.

(** [load_transcriptions_from_file], from the path on. *)
Definition load_file (file_path : str) : option (list TranscriptRecord) :=
  content ← read file_path;
  load_transcriptions_from_file content.

(** The body of the loop over the file names. *)
Definition load_entry (directory_path : str) (calls : list TranscriptRecord)
    (filename : str) : option (list TranscriptRecord) :=
  if endswith TXT filename then
    file_calls ← load_file (join directory_path filename);
    Some (calls ++ file_calls)
  else Some calls.

Definition load_transcriptions_from_directory (directory_path : str)
  : option (list TranscriptRecord) :=
  if path_exists directory_path then
    filenames ← listdir directory_path;
    for_each (load_entry directory_path) [] filenames
  else Some [].

End FileSystem.

(** The names of a listing that end in [.txt], in the order of the
    listing. *)
Definition txt_files (filenames : list str) : list str :=
  filter (λ filename, endswith TXT filename = true) filenames.

(** The records of a text. *)
Definition records_of (content : str) : list TranscriptRecord :=
  sections_of content ≫= section_records.

(** A file system for the examples: the directory [calls] with the files
    [a.txt] and [b.txt] and an entry [notes.md] that cannot be read. *)
Definition example_exists (path : str) : bool := bool_decide (path = lit "calls").

Definition example_listdir (path : str) : option (list str) :=
  if decide (path = lit "calls")
  then Some [lit "a.txt"; lit "notes.md"; lit "b.txt"]
  else None.

Definition example_join (a b : str) : str := a ++ lit "/" ++ b.

Definition example_read (path : str) : option str :=
  if decide (path = lit "calls/a.txt") then Some (lit "---CALL_ID:A---Hi---END---")
  else if decide (path = lit "calls/b.txt") then Some (lit "---CALL_ID:B---Bye---END---")
  else None.

End Directory.

(** ** [convert_chat_history] of [app.py] *)

Module App.

(** [range(start, stop, step)] on natural numbers; a zero step raises
    [ValueError]. *)
Definition range (start stop step : nat) : option (list nat) :=
  if decide (step = 0) then None
  else Some ((λ k, start + k * step) <$> seq 0 ((stop - start + (step - 1)) / step)).

(** The [assert] raises [AssertionError] on a history of odd length. *)
Definition convert_chat_history {A} (history : list A) : option (list (A * A)) :=
  if decide (length history mod 2 = 0) then
    indices ← range 0 (length history) 2;
    for_each (λ chat_history i,
                first ← history !! i;
                second ← history !! (i + 1);
                Some (chat_history ++ [(first, second)]))
             [] indices
  else None.

(** A list of pairs, written out as the history it comes from. *)
Definition flatten {A} (chat_history : list (A * A)) : list A :=
  chat_history ≫= λ turn, [turn.1; turn.2].

End App.

(** ** [main] of [test_skilldiffuser.py]

    A test function prints, and then returns a boolean or raises: its
    outcome. *)

Module TestSuite.
Import Str.

(** What calling a test function does: it returns a truth value, raises an
    [Exception] (an [AssertionError], an [OSError], ...), or raises a
    [BaseException] that is no [Exception] ([SystemExit],
    [KeyboardInterrupt]). *)
Inductive Outcome :=
  | Returns (result : bool)
  | RaisesException
  | RaisesBaseException.

(** The loop over the tests: [except Exception] records [False]; any other
    exception leaves the loop and [main] ([None]). The lines printed are
    left out. *)
Definition run_test (results : list (str * bool)) (test : str * Outcome)
  : option (list (str * bool)) :=
  match test.2 with
  | Returns result => Some (results ++ [(test.1, result)])
  | RaisesException => Some (results ++ [(test.1, false)])
  | RaisesBaseException => None
  end.

Definition run_tests (tests : list (str * Outcome)) : option (list (str * bool)) :=
  for_each run_test [] tests.

(** [total], [passed] and the value [main] returns. *)
Definition total (results : list (str * bool)) : nat := length results.

Definition passed (results : list (str * bool)) : nat :=
  sum_list_with (λ r : str * bool, if r.2 then 1 else 0) results.

Definition main (tests : list (str * Outcome)) : option bool :=
  results ← run_tests tests;
  Some (forallb (λ r : str * bool, r.2) results).

(** The result the loop records for a test that stays in it, and whether a
    test leaves it: what [run_tests] amounts to. *)
Definition recorded (test : str * Outcome) : str * bool :=
  (test.1, match test.2 with Returns result => result | _ => false end).

Definition leaves (test : str * Outcome) : bool :=
  match test.2 with RaisesBaseException => true | _ => false end.

End TestSuite.

(** * Properties *)

(** ** Facts about the string operations *)

Section StrFacts.
Import Str.
Implicit Types (s p sub sep a b : list N) (c : N).

Lemma startswith_spec p s : startswith p s = true ↔ ∃ r, s = p ++ r.
Proof.
  revert s; induction p as [|x p IH]; intros [|y s]; simpl.
  - split; [by exists []|done].
  - split; [by eexists|done].
  - split; [done|by intros [? ?]].
  - rewrite andb_true_iff, N.eqb_eq, IH. split.
    + intros [-> [r ->]]. by exists r.
    + intros [r [= -> ->]]. eauto.
Qed.

Lemma startswith_app p r : startswith p (p ++ r) = true.
Proof. apply startswith_spec; eauto. Qed.

(** Only the first [length p] characters of [s] matter. *)
Lemma startswith_app_long p s r :
  length p ≤ length s → startswith p (s ++ r) = startswith p s.
Proof.
  revert s; induction p as [|x p IH]; intros [|y s] Hl; simpl in *; try done; try lia.
  rewrite IH by lia. done.
Qed.

Lemma startswith_mono p s r : startswith p s = true → startswith p (s ++ r) = true.
Proof.
  rewrite !startswith_spec. intros [t ->]. exists (t ++ r). by rewrite (assoc_L (++)).
Qed.

Lemma startswith_longer_false p q s :
  startswith p s = false → startswith (p ++ q) s = false.
Proof.
  intros H. destruct (startswith (p ++ q) s) eqn:E; [|done].
  apply startswith_spec in E as [r ->].
  by rewrite <-(assoc_L (++)), startswith_app in H.
Qed.

Lemma startswith_length p s : startswith p s = true → length p ≤ length s.
Proof. rewrite startswith_spec. intros [r ->]. rewrite length_app. lia. Qed.

Lemma find_cons_false sub c s :
  startswith sub (c :: s) = false → find sub (c :: s) = S <$> find sub s.
Proof. intros H. simpl find. simpl in H. by rewrite H. Qed.

(** [find] returns an index at which [sub] occurs, and the lowest one. *)
Lemma find_Some sub s i :
  find sub s = Some i →
  startswith sub (drop i s) = true ∧ i + length sub ≤ length s
  ∧ ∀ j, j < i → startswith sub (drop j s) = false.
Proof.
  revert i; induction s as [|c s IH]; intros i.
  - simpl. destruct (startswith sub []) eqn:E; [|done].
    intros [= <-]. split; [done|]. split; [|lia].
    apply startswith_length in E. simpl in *. lia.
  - destruct (startswith sub (c :: s)) eqn:E.
    + simpl find. simpl in E. rewrite E. intros [= <-].
      split; [done|]. split; [|lia]. by apply startswith_length in E.
    + rewrite find_cons_false by done.
      destruct (find sub s) as [k|] eqn:Ek; [|done]. intros [= <-].
      destruct (IH k eq_refl) as (H1 & H2 & H3).
      split; [done|]. split; [simpl; lia|].
      intros [|j] Hj; [done|]. simpl. apply H3. lia.
Qed.

Lemma find_None sub s i : find sub s = None → startswith sub (drop i s) = false.
Proof.
  revert i; induction s as [|c s IH]; intros i.
  - simpl. destruct (startswith sub []) eqn:E; [done|]. by rewrite drop_nil.
  - destruct (startswith sub (c :: s)) eqn:E.
    + simpl find. simpl in E. by rewrite E.
    + rewrite find_cons_false by done.
      destruct (find sub s) eqn:Ek; [done|]. intros _.
      destruct i; [done|]. simpl. by apply IH.
Qed.

(** The converse: an occurrence with none before it is the one found. *)
Lemma find_first sub s i :
  i ≤ length s →
  startswith sub (drop i s) = true →
  (∀ j, j < i → startswith sub (drop j s) = false) →
  find sub s = Some i.
Proof.
  revert i; induction s as [|c s IH]; intros i Hi Hocc Hbefore.
  - simpl in Hi. replace i with 0 in * by lia. simpl in *. by rewrite Hocc.
  - destruct i as [|i].
    + simpl in Hocc. simpl find. by rewrite Hocc.
    + rewrite find_cons_false by (apply (Hbefore 0); lia).
      rewrite (IH i); [done|simpl in Hi; lia|done|].
      intros j Hj. apply (Hbefore (S j)). lia.
Qed.

Lemma find_not_found sub s :
  (∀ j, startswith sub (drop j s) = false) → find sub s = None.
Proof.
  intros H. destruct (find sub s) as [i|] eqn:E; [|done].
  apply find_Some in E as (E & _). by rewrite H in E.
Qed.

(** An occurrence somewhere makes [find] succeed. *)
Lemma find_app_is_Some sub a b : is_Some (find sub (a ++ sub ++ b)).
Proof.
  destruct (find sub (a ++ sub ++ b)) eqn:E; [done|].
  apply (find_None _ _ (length a)) in E.
  by rewrite drop_app_length, startswith_app in E.
Qed.

Lemma first_at_before sub a j :
  first_at sub a → j < length a → ∀ r, startswith sub (drop j a ++ sub ++ r) = false.
Proof.
  intros H Hj r. apply find_Some in H as (_ & _ & H).
  specialize (H j Hj). rewrite drop_app_le in H by lia.
  rewrite (assoc_L (++)), startswith_app_long; [done|].
  rewrite length_app. lia.
Qed.

Lemma find_first_at sub a r : first_at sub a → find sub (a ++ sub ++ r) = Some (length a).
Proof.
  intros H. apply find_first.
  - rewrite length_app. lia.
  - by rewrite drop_app_length, startswith_app.
  - intros j Hj. rewrite drop_app_le by lia. by apply first_at_before.
Qed.

Lemma first_at_find_None sub a : sub ≠ [] → first_at sub a → find sub a = None.
Proof.
  intros Hne H. apply find_not_found. intros j.
  destruct (decide (j < length a)) as [Hj|Hj].
  - destruct (startswith sub (drop j a)) eqn:E; [|done].
    apply (startswith_mono _ _ (sub ++ [])) in E.
    by rewrite (first_at_before sub a j) in E.
  - rewrite drop_ge by lia. by destruct sub.
Qed.

Lemma find_absent_char c p s : c ∉ s → find (c :: p) s = None.
Proof.
  intros Hc. apply find_not_found. intros j.
  destruct (startswith (c :: p) (drop j s)) eqn:E; [|done].
  apply startswith_spec in E as [r E]. exfalso. apply Hc.
  rewrite <-(take_drop j s), E. set_solver.
Qed.

(** *** [split] *)

Lemma split_upto_first_at sep k a r :
  first_at sep a → split_upto sep (S k) (a ++ sep ++ r) = a :: split_upto sep k r.
Proof.
  intros H. simpl. rewrite find_first_at by done.
  rewrite take_app_length. f_equal. f_equal.
  rewrite (assoc_L (++)), <-length_app. apply drop_app_length.
Qed.

Lemma split_upto_not_found sep k s : find sep s = None → split_upto sep k s = [s].
Proof. intros H. destruct k; simpl; [done|]. by rewrite H. Qed.

(** No more than [length s] cuts are ever made: a larger bound changes
    nothing. *)
Lemma split_upto_enough sep n m s :
  sep ≠ [] → length s ≤ n → length s ≤ m → split_upto sep n s = split_upto sep m s.
Proof.
  intros Hsep. revert m s; induction n as [|n IH]; intros m s Hn Hm.
  - destruct s; [|simpl in Hn; lia].
    by rewrite !split_upto_not_found by (by destruct sep).
  - destruct m as [|m].
    + destruct s; [|simpl in Hm; lia].
      by rewrite !split_upto_not_found by (by destruct sep).
    + simpl. destruct (find sep s) as [i|] eqn:E; [|done].
      f_equal. apply find_Some in E as (_ & E & _).
      assert (0 < length sep) by (destruct sep; simpl; [done|lia]).
      apply IH; rewrite length_drop; lia.
Qed.

(** Every string is its pieces with the separator between them, and no
    piece has the separator in it. *)
Lemma split_upto_pieces sep n s :
  sep ≠ [] → length s ≤ n →
  ∃ p ps, split_upto sep n s = p :: ps
          ∧ s = p ++ (ps ≫= λ q, sep ++ q)
          ∧ Forall (λ q, find sep q = None) (p :: ps).
Proof.
  intros Hsep. revert s; induction n as [|n IH]; intros s Hn.
  - destruct s; [|simpl in Hn; lia]. exists [], []. simpl.
    repeat split. constructor; [by destruct sep|constructor].
  - simpl. destruct (find sep s) as [i|] eqn:E.
    + pose proof (find_Some _ _ _ E) as (Hocc & Hlen & Hmin).
      apply startswith_spec in Hocc as [r Hr].
      assert (0 < length sep) by (destruct sep; simpl; [done|lia]).
      destruct (IH (drop (i + length sep) s)) as (p & ps & -> & Es & Hf).
      { rewrite length_drop. lia. }
      exists (take i s), (p :: ps). split; [done|]. split.
      * rewrite bind_cons, <-(assoc_L (++) sep), <-Es, <-drop_drop, Hr, drop_app_length, <-Hr.
        by rewrite take_drop.
      * constructor; [|done]. apply find_not_found. intros j.
        destruct (decide (j < i)) as [Hj|Hj].
        -- destruct (startswith sep (drop j (take i s))) eqn:Ej; [|done].
           apply (startswith_mono _ _ (drop i s)) in Ej.
           rewrite <-drop_app_le, take_drop in Ej by (rewrite length_take; lia).
           by rewrite Hmin in Ej.
        -- rewrite drop_ge by (rewrite length_take; lia). by destruct sep.
    + exists s, []. simpl. rewrite (right_id_L [] (++)).
      repeat split. by repeat constructor.
Qed.

(** *** [replace] *)

Lemma replace_upto_not_found old new k s : find old s = None → replace_upto old new k s = s.
Proof. intros H. destruct k; simpl; [done|]. by rewrite H. Qed.

Lemma replace_upto_enough old new n m s :
  old ≠ [] → length s ≤ n → length s ≤ m →
  replace_upto old new n s = replace_upto old new m s.
Proof.
  intros Hold. revert m s; induction n as [|n IH]; intros m s Hn Hm.
  - destruct s; [|simpl in Hn; lia].
    by rewrite !replace_upto_not_found by (by destruct old).
  - destruct m as [|m].
    + destruct s; [|simpl in Hm; lia].
      by rewrite !replace_upto_not_found by (by destruct old).
    + simpl. destruct (find old s) as [i|] eqn:E; [|done].
      do 2 f_equal. apply find_Some in E as (_ & E & _).
      assert (0 < length old) by (destruct old; simpl; [done|lia]).
      apply IH; rewrite length_drop; lia.
Qed.

Lemma replace_upto_first_at old new k a r :
  first_at old a →
  replace_upto old new (S k) (a ++ old ++ r) = a ++ new ++ replace_upto old new k r.
Proof.
  intros H. simpl. rewrite find_first_at by done.
  rewrite take_app_length. do 3 f_equal.
  rewrite (assoc_L (++)), <-length_app. apply drop_app_length.
Qed.

Lemma replace_first_at old new a r :
  old ≠ [] → first_at old a →
  replace old new (a ++ old ++ r) = a ++ new ++ replace old new r.
Proof.
  intros Hold H. unfold replace. destruct old as [|c old]; [done|].
  assert (length (a ++ (c :: old) ++ r) = S (length a + length old + length r)) as ->.
  { rewrite !length_app. simpl. lia. }
  rewrite replace_upto_first_at by done. do 2 f_equal.
  apply replace_upto_enough; [done|lia..].
Qed.

Lemma replace_not_found old new s : find old s = None → replace old new s = s.
Proof.
  intros H. unfold replace. destruct old.
  - by destruct s.
  - by apply replace_upto_not_found.
Qed.

(** *** [strip] *)

Lemma lstrip_whitespace s : whitespace s → lstrip s = [].
Proof. induction 1 as [|c s Hc _ IH]; simpl; [done|]. by rewrite Hc. Qed.

Lemma lstrip_nil_whitespace s : lstrip s = [] → whitespace s.
Proof.
  induction s as [|c s IH]; simpl; [by constructor|].
  destruct (isspace c) eqn:E; [|done]. intros H.
  constructor; [done|by apply IH].
Qed.

Lemma lstrip_whitespace_app w s : whitespace w → lstrip (w ++ s) = lstrip s.
Proof. induction 1 as [|c w Hc _ IH]; simpl; [done|]. by rewrite Hc. Qed.

Lemma lstrip_app s r : lstrip s ≠ [] → lstrip (s ++ r) = lstrip s ++ r.
Proof.
  induction s as [|c s IH]; simpl; [done|].
  destruct (isspace c); [apply IH|done].
Qed.

Lemma lstrip_head s c : head (lstrip s) = Some c → isspace c = false.
Proof.
  induction s as [|x s IH]; simpl; [done|].
  destruct (isspace x) eqn:E; [done|]. simpl. by intros [= <-].
Qed.

Lemma lstrip_fixed c s : isspace c = false → lstrip (c :: s) = c :: s.
Proof. intros H. simpl. by rewrite H. Qed.

(** [lstrip] removes a whitespace prefix and nothing else. *)
Lemma lstrip_decompose s : ∃ l, whitespace l ∧ s = l ++ lstrip s.
Proof.
  induction s as [|c s (l & Hl & IH)]; simpl.
  - exists []. split; [constructor|done].
  - destruct (isspace c) eqn:E.
    + exists (c :: l). split; [by constructor|]. simpl. by rewrite <-IH.
    + exists []. split; [constructor|done].
Qed.

Lemma whitespace_reverse s : whitespace s → whitespace (reverse s).
Proof. unfold whitespace. by rewrite Forall_reverse. Qed.

Lemma whitespace_app a b : whitespace a → whitespace b → whitespace (a ++ b).
Proof. unfold whitespace. rewrite Forall_app. auto. Qed.

Lemma rstrip_decompose s : ∃ r, whitespace r ∧ s = rstrip s ++ r.
Proof.
  destruct (lstrip_decompose (reverse s)) as (l & Hl & E).
  exists (reverse l). split; [by apply whitespace_reverse|].
  unfold rstrip. rewrite <-reverse_app, <-E. by rewrite reverse_involutive.
Qed.

Lemma rstrip_whitespace_app s w : whitespace w → rstrip (s ++ w) = rstrip s.
Proof.
  intros Hw. unfold rstrip. rewrite reverse_app.
  by rewrite lstrip_whitespace_app by (by apply whitespace_reverse).
Qed.

Lemma rstrip_last s c : last (rstrip s) = Some c → isspace c = false.
Proof. unfold rstrip. rewrite last_reverse. apply lstrip_head. Qed.

(** [strip] removes a whitespace prefix and a whitespace suffix, and
    leaves the text between them as it is. *)
Lemma strip_decompose s : ∃ l r, whitespace l ∧ whitespace r ∧ s = l ++ strip s ++ r.
Proof.
  destruct (lstrip_decompose s) as (l & Hl & El).
  destruct (rstrip_decompose (lstrip s)) as (r & Hr & Er).
  exists l, r. unfold strip. by rewrite <-Er.
Qed.

Lemma strip_head s c : head (strip s) = Some c → isspace c = false.
Proof.
  unfold strip. destruct (rstrip_decompose (lstrip s)) as (r & _ & E).
  intros H. apply (lstrip_head s). rewrite E.
  destruct (rstrip (lstrip s)); [done|]. done.
Qed.

Lemma strip_last s c : last (strip s) = Some c → isspace c = false.
Proof. apply rstrip_last. Qed.

Lemma strip_fixed s :
  (∀ c, head s = Some c → isspace c = false) →
  (∀ c, last s = Some c → isspace c = false) →
  strip s = s.
Proof.
  intros Hh Hl. unfold strip.
  assert (lstrip s = s) as ->.
  { destruct s as [|c s']; [done|]. apply lstrip_fixed. by apply Hh. }
  unfold rstrip. rewrite <-(reverse_involutive s) at 2. f_equal.
  destruct (reverse s) as [|c t] eqn:E; [done|].
  apply lstrip_fixed, Hl. rewrite <-(reverse_involutive s), E.
  by rewrite last_reverse.
Qed.

(** Whitespace after the text does not change the result. *)
Lemma strip_whitespace_app s w : whitespace w → strip (s ++ w) = strip s.
Proof.
  intros Hw. unfold strip. destruct (decide (lstrip s = [])) as [E|E].
  - rewrite E. rewrite lstrip_whitespace; [done|].
    apply whitespace_app; [by apply lstrip_nil_whitespace|done].
  - rewrite lstrip_app by done. by apply rstrip_whitespace_app.
Qed.

(** [strip] leaves something exactly when the string has a character that
    is not whitespace. *)
Lemma strip_nonempty s : strip s ≠ [] ↔ ∃ c, c ∈ s ∧ isspace c = false.
Proof.
  split.
  - intros H. destruct (strip s) as [|c t] eqn:E; [done|].
    exists c. split; [|apply (strip_head s); by rewrite E].
    destruct (strip_decompose s) as (l & r & _ & _ & ->). rewrite E. set_solver.
  - intros (c & Hc & Hsp) E.
    destruct (strip_decompose s) as (l & r & Hl & Hr & Es).
    rewrite E in Es. simpl in Es. subst s.
    pose proof (whitespace_app _ _ Hl Hr) as Hw.
    unfold whitespace in Hw. rewrite Forall_forall in Hw.
    specialize (Hw c Hc). congruence.
Qed.

End StrFacts.

(** ** Facts about the loader *)

Section LoaderFacts.
Import Str Loader.
Implicit Types (s pre section content : list N) (x : Sect).

Lemma render_cons pre section sections :
  render pre (section :: sections) = pre ++ CALL_ID_MARKER ++ render section sections.
Proof. unfold render. by rewrite bind_cons, <-(assoc_L (++)). Qed.

Lemma render_length pre sections : length sections ≤ length (render pre sections).
Proof.
  revert pre; induction sections as [|y l IH]; intros pre; [simpl; lia|].
  rewrite render_cons, !length_app. specialize (IH y). simpl. lia.
Qed.

(** The opening marker does not overlap itself: a text without it, followed
    by it, has it at the end only. *)
Lemma CALL_ID_MARKER_no_overlap s :
  0 < length s < length CALL_ID_MARKER → startswith CALL_ID_MARKER (s ++ CALL_ID_MARKER) = false.
Proof.
  intros [H1 H2].
  do 11 (destruct s as [|? s];
         [ simpl in H1, H2; try lia;
           cbn; rewrite ?andb_false_r; reflexivity |]).
  simpl in H2. lia.
Qed.

Lemma CALL_ID_MARKER_first_at s : find CALL_ID_MARKER s = None → first_at CALL_ID_MARKER s.
Proof.
  intros H. apply find_first.
  - rewrite length_app. lia.
  - by rewrite drop_app_length.
  - intros j Hj. rewrite drop_app_le by lia.
    destruct (decide (length CALL_ID_MARKER ≤ length (drop j s))) as [Hl|Hl].
    + rewrite startswith_app_long by done. by apply find_None.
    + apply CALL_ID_MARKER_no_overlap. rewrite length_drop in *. lia.
Qed.

(** Cutting the text of a file at the opening markers gives back the text
    before the first one and the sections. *)
Lemma split_upto_render n pre sections :
  Forall (λ q, find CALL_ID_MARKER q = None) (pre :: sections) →
  length sections ≤ n →
  split_upto CALL_ID_MARKER n (render pre sections) = pre :: sections.
Proof.
  revert n pre; induction sections as [|y l IH]; intros n pre Hf Hn.
  - unfold render. simpl. rewrite (right_id_L [] (++)).
    apply split_upto_not_found. by apply Forall_inv in Hf.
  - destruct n as [|n]; [simpl in Hn; lia|].
    rewrite render_cons, split_upto_first_at
      by (apply CALL_ID_MARKER_first_at; by apply Forall_inv in Hf).
    f_equal. apply IH; [by apply Forall_inv_tail in Hf|simpl in Hn; lia].
Qed.

Lemma sections_of_render pre sections :
  Forall (λ q, find CALL_ID_MARKER q = None) (pre :: sections) →
  sections_of (render pre sections) = sections.
Proof.
  intros Hf. unfold sections_of.
  by rewrite split_upto_render by (done || apply render_length).
Qed.

(** A section with the closing marker in it has a [---] in it: the
    [else] of [transcript_part] is never taken. *)
Lemma separator_found section :
  contains END_MARKER section = true → is_Some (find DASHES section).
Proof.
  unfold contains. destruct (find END_MARKER section) as [i|] eqn:E; [intros _|done].
  apply find_Some in E as (E & _).
  destruct (find DASHES section) eqn:Ed; [done|].
  apply (find_None _ _ i) in Ed.
  apply (startswith_longer_false DASHES (lit "END---")) in Ed.
  change (DASHES ++ lit "END---") with END_MARKER in Ed. congruence.
Qed.

(** The loop body never raises, and adds [section_records]. *)
Lemma parse_section_records calls section :
  parse_section calls section = Some (calls ++ section_records section).
Proof.
  unfold parse_section, section_records.
  destruct (contains END_MARKER section) eqn:E; [|by rewrite (right_id_L [] (++))].
  unfold id_text, body_text. simpl.
  by destruct (find DASHES section) as [i|].
Qed.

Lemma for_each_parse_section calls sections :
  for_each parse_section calls sections = Some (calls ++ (sections ≫= section_records)).
Proof.
  revert calls; induction sections as [|y l IH]; intros calls; simpl.
  - by rewrite (right_id_L [] (++)).
  - rewrite parse_section_records. simpl. rewrite IH. by rewrite <-(assoc_L (++)).
Qed.

(** The loader never raises: it returns the records of its sections, in
    the order of the file. *)
Lemma load_sections_of content :
  load_transcriptions_from_file content = Some (sections_of content ≫= section_records).
Proof.
  unfold load_transcriptions_from_file. simpl.
  by rewrite for_each_parse_section.
Qed.

Lemma load_render pre sections :
  Forall (λ q, find CALL_ID_MARKER q = None) (pre :: sections) →
  load_transcriptions_from_file (render pre sections) = Some (sections ≫= section_records).
Proof. intros H. by rewrite load_sections_of, sections_of_render. Qed.

Lemma whitespace_no_END_MARKER w : whitespace w → find END_MARKER w = None.
Proof.
  intros Hw. apply find_absent_char. intros Hin.
  unfold whitespace in Hw. rewrite Forall_forall in Hw. by apply Hw in Hin.
Qed.

Lemma sect_text_contains_END x : contains END_MARKER (sect_text x) = true.
Proof.
  unfold contains, sect_text.
  rewrite (assoc_L (++) (sect_id x)), (assoc_L (++) (sect_id x ++ DASHES)).
  by destruct (find_app_is_Some END_MARKER ((sect_id x ++ DASHES) ++ sect_body x) (sect_trail x))
    as [i ->].
Qed.

(** The record of a section in the written form: the text that follows
    the closing marker stays in the transcript, without its [---END---]. *)
Lemma section_records_sect x :
  first_at DASHES (sect_id x) → first_at END_MARKER (sect_body x) →
  section_records (sect_text x)
  = [mkRecord (strip (sect_id x))
              (strip (sect_body x ++ replace END_MARKER [] (sect_trail x)))].
Proof.
  intros Hid Hbody. unfold section_records. rewrite sect_text_contains_END.
  unfold id_text, body_text, sect_text.
  rewrite find_first_at by done. rewrite take_app_length.
  rewrite (assoc_L (++) (sect_id x)), <-length_app, drop_app_length.
  by rewrite replace_first_at by done.
Qed.

Lemma section_records_sect_whitespace x :
  first_at DASHES (sect_id x) → first_at END_MARKER (sect_body x) →
  whitespace (sect_trail x) →
  section_records (sect_text x) = [sect_record x].
Proof.
  intros Hid Hbody Hw. rewrite section_records_sect by done.
  rewrite replace_not_found by (by apply whitespace_no_END_MARKER).
  by rewrite strip_whitespace_app.
Qed.

Lemma section_records_no_END section :
  contains END_MARKER section = false → section_records section = [].
Proof. intros H. unfold section_records. by rewrite H. Qed.

(** A text with no [p] in it, followed by a text that starts with [p] and
    has no [p ++ q] in it, has no [p ++ q] in it. *)
Lemma first_at_longer p q a b :
  first_at p a → first_at (p ++ q) (p ++ b) → first_at (p ++ q) (a ++ p ++ b).
Proof.
  intros Ha Hb. apply find_first.
  - rewrite !length_app. lia.
  - rewrite drop_app_length. apply startswith_spec. exists []. by rewrite (right_id_L [] (++)).
  - intros j Hj. destruct (decide (j < length a)) as [Hlt|Hge].
    + rewrite <-!(assoc_L (++)), drop_app_le by lia.
      apply startswith_longer_false. by apply first_at_before.
    + rewrite <-(assoc_L (++)), drop_app_ge by lia.
      rewrite length_app in Hj.
      pose proof (first_at_before _ _ (j - length a) Hb ltac:(lia) []) as H.
      rewrite (right_id_L [] (++)) in H.
      rewrite drop_app_le; [done|lia].
Qed.

(** Every text is a file in the sense of [render]: what stands before the
    first opening marker, and then the sections the loader cuts. *)
Lemma content_render content :
  ∃ pre, content = render pre (sections_of content)
         ∧ Forall (λ q, find CALL_ID_MARKER q = None) (pre :: sections_of content).
Proof.
  destruct (split_upto_pieces CALL_ID_MARKER (length content) content)
    as (p & ps & E & Ec & Hf); [done|lia|].
  unfold sections_of. rewrite E. simpl. rewrite drop_0. by exists p.
Qed.

(** *** The claims about the loader *)

(** C2, as stated, fails: text that follows a closing marker is not
    dropped, it ends up in the transcript of the section before it.  The
    file [---CALL_ID:C1---], [Hello], [---END---], [noise] (four lines)
    gives the transcript [Hello], two newlines, [noise]. *)
Lemma noise_after_section_kept :
  let x := mkSect (lit "C1") (NL ++ lit "Hello" ++ NL) (NL ++ lit "noise") in
  render [] [sect_text x] = lines [lit "---CALL_ID:C1---"; lit "Hello"; lit "---END---"; lit "noise"]
  ∧ find CALL_ID_MARKER [] = None ∧ well_formed x
  ∧ load_transcriptions_from_file (render [] [sect_text x])
    = Some [mkRecord (lit "C1") (lit "Hello" ++ NL ++ NL ++ lit "noise")]
  ∧ load_transcriptions_from_file (render [] [sect_text x]) ≠ Some [sect_record x].
Proof.
  repeat split; try (vm_compute; reflexivity).
  intros H. vm_compute in H. discriminate H.
Qed.

(** C2 (amended): a file made of any text without an opening marker,
    followed by [n ≥ 0] well-formed sections each followed by whitespace
    only, gives exactly [n] records, in the order of the file, each with
    the identifier and the body stripped of leading and trailing
    whitespace. *)
Theorem load_well_formed_sections pre (xs : list Sect) :
  find CALL_ID_MARKER pre = None →
  Forall well_formed xs →
  Forall (λ x, whitespace (sect_trail x)) xs →
  ∃ records,
    load_transcriptions_from_file (render pre (sect_text <$> xs)) = Some records
    ∧ length records = length xs
    ∧ records = sect_record <$> xs.
Proof.
  intros Hpre Hwf Hws. exists (sect_record <$> xs).
  split; [|split; [apply length_fmap|done]].
  rewrite load_render.
  - f_equal. induction xs as [|x xs IH]; [done|].
    apply Forall_cons in Hwf as [(Hid & Hbody & _) Hwf].
    apply Forall_cons in Hws as [Hw Hws].
    rewrite fmap_cons, bind_cons, section_records_sect_whitespace by done.
    simpl. f_equal. by apply IH.
  - constructor; [done|]. rewrite Forall_fmap.
    eapply Forall_impl; [exact Hwf|]. by intros x (_ & _ & H).
Qed.

(** Scenario A of C2: [---CALL_ID:C1---], [Hello world], [---END---]
    (three lines) gives the one record [C1], [Hello world]. *)
Lemma load_scenario_A :
  load_transcriptions_from_file (lines [lit "---CALL_ID:C1---"; lit "Hello world"; lit "---END---"])
  = Some [mkRecord (lit "C1") (lit "Hello world")].
Proof.
  destruct (load_well_formed_sections []
              [mkSect (lit "C1") (NL ++ lit "Hello world" ++ NL) []])
    as (records & Hload & _ & ->).
  - vm_compute; reflexivity.
  - repeat constructor; vm_compute; reflexivity.
  - repeat constructor.
  - exact Hload.
Defined.

(** C5, as stated, fails: [replace] removes every [---END---] of the text
    after the separator, and keeps what follows.  In the section
    [A---a---END---b---END---] the transcript is [ab]: neither the text up
    to the last closing marker, [a---END---b], nor the text up to the first
    one, [a]. *)
Lemma interior_END_MARKER_removed :
  let section := lit "A---a---END---b---END---" in
  section = sect_text (mkSect (lit "A") (lit "a---END---b") [])
  ∧ section = sect_text (mkSect (lit "A") (lit "a") (lit "b---END---"))
  ∧ load_transcriptions_from_file (CALL_ID_MARKER ++ section)
    = Some [mkRecord (lit "A") (lit "ab")]
  ∧ parse_section [] section = Some [mkRecord (lit "A") (lit "ab")]
  ∧ lit "ab" ≠ strip (lit "a---END---b")
  ∧ lit "ab" ≠ strip (lit "a").
Proof.
  repeat split; try (vm_compute; reflexivity);
    intros H; vm_compute in H; discriminate H.
Qed.

(** C5 (amended): for a section in which the identifier is the text up to
    the first [---], the body is the text from there up to the first
    [---END---], and only whitespace follows that marker, the transcript
    is the body without its leading and trailing whitespace, and the rest
    of the body, interior whitespace and [---] included, is kept as it
    is. *)
Theorem transcript_is_stripped_body calls x :
  first_at DASHES (sect_id x) →
  first_at END_MARKER (sect_body x) →
  whitespace (sect_trail x) →
  ∃ r l t,
    parse_section calls (sect_text x) = Some (calls ++ [r])
    ∧ transcript r = strip (sect_body x)
    ∧ whitespace l ∧ whitespace t
    ∧ sect_body x = l ++ transcript r ++ t
    ∧ (∀ c, head (transcript r) = Some c → isspace c = false)
    ∧ (∀ c, last (transcript r) = Some c → isspace c = false).
Proof.
  intros Hid Hbody Hw.
  destruct (strip_decompose (sect_body x)) as (l & t & Hl & Ht & E).
  exists (sect_record x), l, t.
  rewrite parse_section_records, section_records_sect_whitespace by done.
  repeat split; try done; intros c; [apply strip_head|apply strip_last].
Qed.

(** A body with [---], a partial marker and interior blank lines is kept
    as it is between its first and its last character. *)
Lemma transcript_is_stripped_body_example :
  ∃ r, parse_section []
         (sect_text (mkSect (lit " C7 ")
                            (NL ++ lit "a --- b" ++ NL ++ NL ++ lit "---END c  " ++ NL)
                            NL))
       = Some [r]
     ∧ transcript r = lit "a --- b" ++ NL ++ NL ++ lit "---END c".
Proof.
  destruct (transcript_is_stripped_body []
              (mkSect (lit " C7 ")
                      (NL ++ lit "a --- b" ++ NL ++ NL ++ lit "---END c  " ++ NL) NL))
    as (r & l & t & Hp & Ht & _).
  - vm_compute; reflexivity.
  - vm_compute; reflexivity.
  - repeat constructor.
  - exists r. split; [exact Hp|]. rewrite Ht. vm_compute; reflexivity.
Defined.

(** C6: a section with no [---END---] adds no record and raises nothing,
    wherever it stands in the file, and the sections around it are read as
    they are without it; a well-formed section right after it gives its
    record. *)
Theorem malformed_section_dropped pre before bad after calls :
  Forall (λ q, find CALL_ID_MARKER q = None) (pre :: before ++ bad :: after) →
  contains END_MARKER bad = false →
  parse_section calls bad = Some calls
  ∧ load_transcriptions_from_file (render pre (before ++ bad :: after))
    = Some ((before ≫= section_records) ++ (after ≫= section_records))
  ∧ load_transcriptions_from_file (render pre (before ++ bad :: after))
    = load_transcriptions_from_file (render pre (before ++ after))
  ∧ ∀ x rest,
      after = sect_text x :: rest →
      first_at DASHES (sect_id x) →
      first_at END_MARKER (sect_body x) →
      whitespace (sect_trail x) →
      load_transcriptions_from_file (render pre (before ++ bad :: after))
      = Some ((before ≫= section_records) ++ sect_record x :: (rest ≫= section_records)).
Proof.
  intros Hf Hbad.
  apply Forall_cons in Hf as [Hpre Hf].
  pose proof Hf as Hall.
  apply Forall_app in Hf as [Hbefore Hf].
  apply Forall_cons in Hf as [Hb Hafter].
  assert (section_records bad = []) as Eb by (by apply section_records_no_END).
  assert (load_transcriptions_from_file (render pre (before ++ bad :: after))
          = Some ((before ≫= section_records) ++ (after ≫= section_records))) as E.
  { rewrite load_render by (by constructor).
    by rewrite bind_app, bind_cons, Eb. }
  split; [|split; [|split]].
  - by rewrite parse_section_records, Eb, (right_id_L [] (++)).
  - done.
  - rewrite E, load_render, bind_app; [done|].
    constructor; [done|]. apply Forall_app. by split.
  - intros x rest -> Hid Hbody Hw. rewrite E, bind_cons.
    by rewrite section_records_sect_whitespace.
Qed.

(** A section cut short by the next opening marker is dropped and the
    section after it is read. *)
Lemma malformed_section_dropped_example :
  load_transcriptions_from_file
    (lines [lit "---CALL_ID:A---"; lit "no end here";
            lit "---CALL_ID:B---"; lit "Hi there"; lit "---END---"])
  = Some [mkRecord (lit "B") (lit "Hi there")].
Proof.
  destruct (malformed_section_dropped [] [] (lit "A---" ++ NL ++ lit "no end here" ++ NL)
              [sect_text (mkSect (lit "B") (NL ++ lit "Hi there" ++ NL) [])] [])
    as (_ & _ & _ & H).
  - repeat constructor; vm_compute; reflexivity.
  - vm_compute; reflexivity.
  - apply (H (mkSect (lit "B") (NL ++ lit "Hi there" ++ NL) []) []).
    + reflexivity.
    + vm_compute; reflexivity.
    + vm_compute; reflexivity.
    + repeat constructor.
Defined.

(** C7, as stated, fails for an identifier that ends in [-].  The loader
    returns the identifier [A-] for the section [A- ---x---END---], but
    [---CALL_ID:A-------END---] is cut at the first [---], one character
    earlier than the end of the identifier: the record has the identifier
    [A] and the transcript [-], not the identifier [A-] and the empty
    transcript.  An identifier with whitespace around it is not returned
    as it is either. *)
Lemma identifier_ending_in_dash :
  let id := lit "A-" in
  load_transcriptions_from_file (lit "---CALL_ID:A- ---x---END---")
  = Some [mkRecord id (lit "x")]
  ∧ CALL_ID_MARKER ++ id ++ lit "------END---" = lit "---CALL_ID:A-------END---"
  ∧ load_transcriptions_from_file (CALL_ID_MARKER ++ id ++ lit "------END---")
    = Some [mkRecord (lit "A") (lit "-")]
  ∧ parse_section [] (id ++ lit "------END---") = Some [mkRecord (lit "A") (lit "-")]
  ∧ mkRecord (lit "A") (lit "-") ≠ mkRecord id []
  ∧ ¬ first_at DASHES id
  ∧ load_transcriptions_from_file (CALL_ID_MARKER ++ lit " B " ++ lit "------END---")
    = Some [mkRecord (lit "B") []].
Proof.
  repeat split; try (vm_compute; reflexivity);
    intros H; vm_compute in H; discriminate H.
Qed.

(** C7 (amended): for an identifier [id] in which [---] does not occur,
    also not across its end and the [---] that follows (the text up to the
    next [---]), the section [---CALL_ID:<id>------END---] gives one
    record, with that identifier (stripped, as every identifier is) and
    the empty transcript; nothing is raised. *)
Theorem missing_body_gives_empty_transcript id :
  first_at DASHES id →
  load_transcriptions_from_file (CALL_ID_MARKER ++ id ++ lit "------END---")
  = Some [mkRecord (strip id) []]
  ∧ parse_section [] (id ++ lit "------END---") = Some [mkRecord (strip id) []]
  ∧ ((∀ c, head id = Some c → isspace c = false) →
     (∀ c, last id = Some c → isspace c = false) → strip id = id).
Proof.
  intros Hid. set (x := mkSect id [] []).
  assert (section_records (sect_text x) = [mkRecord (strip id) []]) as Ex.
  { by rewrite section_records_sect_whitespace by (done || constructor). }
  change (id ++ lit "------END---") with (sect_text x).
  assert (CALL_ID_MARKER ++ sect_text x = render [] [sect_text x]) as ->.
  { symmetry. exact (app_nil_r (CALL_ID_MARKER ++ sect_text x)). }
  split; [|split].
  - rewrite load_render; [by rewrite bind_cons, Ex|].
    repeat constructor.
    apply first_at_find_None; [done|].
    by apply (first_at_longer DASHES (lit "CALL_ID:") id END_MARKER).
  - by rewrite parse_section_records, Ex.
  - apply strip_fixed.
Qed.

Lemma missing_body_example :
  load_transcriptions_from_file (lit "---CALL_ID:CALL_001------END---")
  = Some [mkRecord (lit "CALL_001") []].
Proof.
  destruct (missing_body_gives_empty_transcript (lit "CALL_001")) as (H & _).
  - vm_compute; reflexivity.
  - exact H.
Defined.

(** C9, as stated, fails: the loader does not look at the identifier it
    has stripped.  A section with nothing, or whitespace only, between the
    opening marker and the next [---] gives a record with the empty
    call identifier. *)
Lemma empty_call_id_record :
  load_transcriptions_from_file (lit "---CALL_ID:------END---")
  = Some [mkRecord [] []]
  ∧ load_transcriptions_from_file (lit "---CALL_ID:  ---Hello---END---")
    = Some [mkRecord [] (lit "Hello")]
  ∧ ¬ (∀ content records r,
         load_transcriptions_from_file content = Some records →
         r ∈ records → call_id r ≠ []).
Proof.
  split; [by vm_compute|]. split; [by vm_compute|].
  intros H.
  apply (H (lit "---CALL_ID:------END---") [mkRecord [] []] (mkRecord [] []));
    [by vm_compute|set_solver|done].
Qed.

(** C9 (amended): every record comes from a section of the file, and its
    call identifier is the text of that section up to its first [---],
    stripped; it is non-empty exactly when that text has a character that
    is not whitespace. *)
Theorem call_id_nonempty_iff content records r :
  load_transcriptions_from_file content = Some records →
  r ∈ records →
  ∃ section,
    section ∈ sections_of content
    ∧ contains END_MARKER section = true
    ∧ call_id r = strip (id_text section)
    ∧ (call_id r ≠ [] ↔ ∃ c, c ∈ id_text section ∧ isspace c = false).
Proof.
  rewrite load_sections_of. intros [= <-] Hr.
  apply list_elem_of_bind in Hr as (section & Hr & Hsec).
  exists section. split; [done|].
  unfold section_records in Hr.
  destruct (contains END_MARKER section); [|by apply elem_of_nil in Hr].
  apply list_elem_of_singleton in Hr as ->. simpl.
  split; [done|]. split; [done|]. apply strip_nonempty.
Qed.

Lemma call_id_nonempty_example :
  ∃ section,
    section ∈ sections_of (lit "x---CALL_ID: C9 ---Hello---END---")
    ∧ contains END_MARKER section = true
    ∧ lit "C9" = strip (id_text section)
    ∧ (lit "C9" ≠ [] ↔ ∃ c, c ∈ id_text section ∧ isspace c = false).
Proof.
  apply (call_id_nonempty_iff (lit "x---CALL_ID: C9 ---Hello---END---")
           [mkRecord (lit "C9") (lit "Hello")] (mkRecord (lit "C9") (lit "Hello"))).
  - vm_compute; reflexivity.
  - apply list_elem_of_singleton. reflexivity.
Defined.

End LoaderFacts.

(** ** Facts about the division of two integers *)

Section FloatFacts.
Import Float.
Local Open Scope Z_scope.
Implicit Types (a b h k num den e p m : Z).

(** The division above and the Standard Library's give the same float on
    the small quotients, and on some large ones. *)
Lemma rounded_agrees_with_SFdiv :
  agree_up_to 64 = true
  ∧ rounded 1 3 = SFdiv_integers 1 3
  ∧ rounded 1 3 = S754_finite false 6004799503160661 (-54)
  ∧ rounded 2 3 = SFdiv_integers 2 3
  ∧ rounded 999999 1000000 = SFdiv_integers 999999 1000000
  ∧ rounded 1 (2 ^ 52) = SFdiv_integers 1 (2 ^ 52)
  ∧ rounded (2 ^ 52 - 1) (2 ^ 52) = SFdiv_integers (2 ^ 52 - 1) (2 ^ 52)
  ∧ rounded 4503599627370497 9007199254740991
    = SFdiv_integers 4503599627370497 9007199254740991.
Proof. repeat split; vm_compute; reflexivity. Qed.

(** [round_half_even] is within one half of the fraction. *)
Lemma round_half_even_spec num den :
  0 <= num → 0 < den →
  let m := round_half_even num den in
  num / den <= m <= num / den + 1
  ∧ 2 * m * den - den <= 2 * num <= 2 * m * den + den.
Proof.
  intros Hnum Hden. unfold round_half_even. simpl.
  pose proof (Z.div_mod num den ltac:(lia)) as Hdm.
  pose proof (Z.mod_pos_bound num den Hden) as Hmod.
  destruct (Z.compare_spec (2 * (num mod den)) den) as [E|E|E].
  - destruct (Z.even (num / den)); split; nia.
  - split; nia.
  - split; nia.
Qed.

Lemma exponent_bounds h k : 0 < h <= k → -1074 <= exponent h k <= -52.
Proof.
  intros [Hh Hk]. unfold exponent.
  pose proof (Z.log2_le_mono h k Hk) as Hlog.
  destruct (scaled h k (Z.log2 h - Z.log2 k - 52)) as [num den].
  destruct (2 ^ 52 * den <=? num); lia.
Qed.

Lemma scaled_negative a b e : e < 0 → scaled a b e = (a * 2 ^ (- e), b).
Proof. intros H. unfold scaled. by rewrite (proj2 (Z.leb_gt 0 e)) by lia. Qed.

Lemma to_pos_pow p : 0 <= p → Z.pos (Z.to_pos (2 ^ p)) = 2 ^ p.
Proof. intros H. apply Z2Pos.id. by apply Z.pow_pos_nonneg. Qed.

(** The quotient of [h] by a [k] that is not smaller: the mantissa [m] and
    the exponent [- p] before the result is written as a float. *)
Lemma rounded_le h k :
  0 < h <= k →
  let p := - exponent h k in
  ∃ m,
    52 <= p <= 1074
    ∧ 0 <= m <= 2 ^ p
    ∧ 2 * m * k - k <= 2 * (h * 2 ^ p) <= 2 * m * k + k
    ∧ (float_value (rounded h k) == m # Z.to_pos (2 ^ p))%Q
    ∧ (rounded h k = zero ∧ m = 0
       ∨ ∃ q e, rounded h k = S754_finite false q e ∧ - p <= e <= -52
                ∧ (e = - p ∧ Z.pos q = m ∨ e = - p + 1 ∧ m = 2 ^ 53 ∧ Z.pos q = 2 ^ 52)).
Proof.
  intros Hhk p0. subst p0. pose proof (exponent_bounds h k Hhk) as He.
  unfold rounded. rewrite (proj2 (Z.eqb_neq h 0)) by lia.
  set (e := exponent h k) in *. rewrite scaled_negative by lia.
  set (p := - e). set (m := round_half_even (h * 2 ^ p) k).
  assert (0 < 2 ^ p) as Hpow by (apply Z.pow_pos_nonneg; lia).
  destruct (round_half_even_spec (h * 2 ^ p) k) as [Hn Herr]; [nia|lia|]. fold m in Hn, Herr.
  assert (0 <= (h * 2 ^ p) / k) as Hdiv by (apply Z.div_pos; nia).
  assert (m <= 2 ^ p) as Hm by nia.
  exists m. split; [lia|]. split; [lia|]. split; [lia|].
  destruct (m =? 2 ^ 53) eqn:E53.
  - apply Z.eqb_eq in E53.
    assert (53 <= p) as Hp.
    { destruct (decide (53 <= p)); [done|]. exfalso.
      assert (2 ^ p <= 2 ^ 52) by (apply Z.pow_le_mono_r; lia). lia. }
    change (2 ^ 52) with 4503599627370496.
    rewrite (proj2 (Z.leb_le (e + 1) 971)) by lia. split.
    + unfold float_value. rewrite (proj2 (Z.leb_gt 0 (e + 1))) by lia.
      unfold Qeq. simpl Qnum. simpl Qden. rewrite !to_pos_pow by lia.
      rewrite E53. replace (- (e + 1)) with (p - 1) by lia.
      replace (2 ^ p) with (2 * 2 ^ (p - 1)).
      * change (2 ^ 53) with (2 * 4503599627370496). lia.
      * rewrite <-Z.pow_succ_r by lia. f_equal. lia.
    + right. exists 4503599627370496%positive, (e + 1).
      split; [done|]. split; [lia|]. right. split; [lia|]. split; [done|done].
  - apply Z.eqb_neq in E53. destruct m as [|q|q] eqn:Em; [| |lia].
    + split; [done|]. by left.
    + rewrite (proj2 (Z.leb_le e 971)) by lia. split.
      * unfold float_value. rewrite (proj2 (Z.leb_gt 0 e)) by lia. done.
      * right. exists q, e. split; [done|]. split; [lia|]. left. split; [lia|done].
Qed.

Lemma exponent_same k : 0 < k → exponent k k = -52.
Proof.
  intros Hk. unfold exponent. rewrite Z.sub_diag. simpl Z.sub.
  rewrite scaled_negative by lia. simpl Z.opp.
  rewrite (proj2 (Z.leb_le _ _)) by lia. done.
Qed.

Lemma rounded_0 k : rounded 0 k = zero.
Proof. done. Qed.

(** A quotient that is at most 1 is not too large for a float. *)
Lemma true_divide_le (h k : nat) :
  (0 < k)%nat → (h ≤ k)%nat →
  true_divide h k = Some (rounded (Z.of_nat h) (Z.of_nat k)).
Proof.
  intros Hk Hh. unfold true_divide. rewrite decide_False by lia.
  destruct h as [|h]; [done|].
  destruct (rounded_le (Z.of_nat (S h)) (Z.of_nat k)) as (m & _ & _ & _ & _ & Hshape); [lia|].
  destruct Hshape as [[-> _]|(q & e & -> & _)]; done.
Qed.

(** Such a quotient is the float zero or a positive float. *)
Lemma rounded_finite h k :
  0 <= h <= k → 0 < k →
  rounded h k = zero ∨ ∃ (q : positive) e, rounded h k = S754_finite false q e.
Proof.
  intros Hh Hk. destruct (decide (h = 0)) as [->|Hh0]; [by left|].
  destruct (rounded_le h k) as (m & _ & _ & _ & _ & Hshape); [lia|].
  destruct Hshape as [[-> _]|(q & e & -> & _)]; eauto.
Qed.

(** The value of such a quotient lies between 0 and 1. *)
Lemma rounded_value_bounds h k :
  0 <= h <= k → 0 < k →
  (0 <= float_value (rounded h k))%Q ∧ (float_value (rounded h k) <= 1)%Q.
Proof.
  intros Hh Hk. destruct (decide (h = 0)) as [->|Hh0]; [done|].
  destruct (rounded_le h k) as (m & Hp & Hm & _ & -> & _); [lia|].
  unfold Qle. simpl Qnum. simpl Qden. rewrite to_pos_pow by lia. lia.
Qed.

(** It is within [2^-53] of the quotient. *)
Lemma rounded_error h k :
  0 <= h <= k → 0 < k →
  (Qabs (float_value (rounded h k) - (h # Z.to_pos k)) <= 1 # 9007199254740992)%Q.
Proof.
  intros Hh Hk. apply Qabs_Qle_condition.
  destruct (decide (h = 0)) as [->|Hh0]; [done|].
  destruct (rounded_le h k) as (m & Hp & Hm & Herr & -> & _); [lia|].
  set (p := - exponent h k) in *.
  assert (2 ^ 52 <= 2 ^ p) as Hpow by (apply Z.pow_le_mono_r; lia).
  change (2 ^ 52) with 4503599627370496 in Hpow.
  unfold Qle, Qminus, Qplus, Qopp. simpl Qnum. simpl Qden.
  rewrite !Pos2Z.inj_mul, to_pos_pow, Z2Pos.id by lia. split; nia.
Qed.

Lemma rounded_same k : 0 < k → rounded k k = one.
Proof.
  intros Hk. destruct (rounded_le k k) as (m & _ & Hm & Herr & _ & Hshape); [lia|].
  rewrite exponent_same in * by done. simpl Z.opp in *.
  change (2 ^ 52) with 4503599627370496 in *. change (2 ^ 53) with 9007199254740992 in *.
  assert (m = 4503599627370496) as -> by nia.
  destruct Hshape as [[_ ?]|(q & e & -> & _ & [[-> Hq]|[_ [? _]]])]; [lia| |lia].
  unfold one. f_equal. lia.
Qed.

(** With at most [2^52] in the denominator, only the quotient 0 gives the
    float zero and only the quotient 1 the float one. *)
Lemma rounded_zero_iff h k :
  0 <= h <= k → 0 < k <= 2 ^ 52 → rounded h k = zero ↔ h = 0.
Proof.
  intros Hh Hk. split; [|by intros ->].
  intros E. destruct (decide (h = 0)) as [|Hh0]; [done|]. exfalso.
  destruct (rounded_le h k) as (m & Hp & Hm & Herr & _ & Hshape); [lia|].
  set (p := - exponent h k) in *.
  assert (2 ^ 52 <= 2 ^ p) as Hpow by (apply Z.pow_le_mono_r; lia).
  destruct Hshape as [[_ ->]|(q & e & E' & _)]; [nia|].
  rewrite E' in E. discriminate E.
Qed.

Lemma rounded_one_iff h k :
  0 <= h <= k → 0 < k <= 2 ^ 52 → rounded h k = one ↔ h = k.
Proof.
  intros Hh Hk. split; [|intros ->; apply rounded_same; lia].
  intros E. destruct (decide (h = k)) as [|Hne]; [done|]. exfalso.
  destruct (decide (h = 0)) as [->|Hh0]; [discriminate E|].
  destruct (rounded_le h k) as (m & Hp & Hm & Herr & _ & Hshape); [lia|].
  set (p := - exponent h k) in *.
  change (2 ^ 52) with 4503599627370496 in *. change (2 ^ 53) with 9007199254740992 in *.
  destruct Hshape as [[E' _]|(q & e & E' & _ & Hcase)]; rewrite E' in E; [discriminate E|].
  injection E as -> ->.
  destruct Hcase as [[Hp' Hq]|[Hp' [Hm' _]]].
  - assert (p = 52) as Ep by lia. rewrite Ep in *.
    change (2 ^ 52) with 4503599627370496 in *. nia.
  - assert (p = 53) as Ep by lia. rewrite Ep in *.
    change (2 ^ 53) with 9007199254740992 in *. nia.
Qed.

End FloatFacts.

(** ** Facts about the aggregator *)

Section AggregatorFacts.
Import Str Aggregator.
Implicit Types (n label : list N) (entries occ : list Skill)
  (analyses : list CallAnalysis) (st : gmap (list N) nat * gmap (list N) (list (list N))).

Lemma occurrences_snoc_same entries skill :
  occurrences (name skill) (entries ++ [skill]) = occurrences (name skill) entries ++ [skill].
Proof. unfold occurrences. by rewrite filter_app, (filter_cons_True _ skill) by done. Qed.

Lemma occurrences_snoc_other n entries skill :
  name skill ≠ n → occurrences n (entries ++ [skill]) = occurrences n entries.
Proof.
  intros H. unfold occurrences.
  by rewrite filter_app, (filter_cons_False _ skill), filter_nil, (right_id_L [] (++)) by done.
Qed.

Lemma occurrences_nil_iff n entries : occurrences n entries = [] ↔ n ∉ name <$> entries.
Proof.
  unfold occurrences. split.
  - intros H Hin. apply list_elem_of_fmap in Hin as (skill & -> & Hin).
    by apply (filter_nil_not_elem_of _ _ skill H).
  - intros H. destruct (filter _ entries) as [|skill l] eqn:E; [done|].
    exfalso. apply H.
    assert (skill ∈ filter (λ skill, name skill = n) entries) as Hin
      by (rewrite E; set_solver).
    apply list_elem_of_filter in Hin as [<- Hin]. by apply list_elem_of_fmap_2.
Qed.

Lemma tallied_empty : tallied [] (∅, ∅).
Proof. intros n. simpl. by rewrite !lookup_empty. Qed.

(** One turn of the inner loop raises nothing and keeps the dicts in step
    with the entries seen. *)
Lemma record_skill_tallied entries st skill :
  tallied entries st →
  ∃ st', record_skill st skill = Some st' ∧ tallied (entries ++ [skill]) st'.
Proof.
  intros Hst. destruct st as [c e]. unfold record_skill. simpl.
  destruct (Hst (name skill)) as [Hc He]. simpl in Hc, He.
  set (c0 := match c !! name skill with
             | None => (<[name skill := 0]> c, <[name skill := []]> e)
             | Some _ => (c, e)
             end).
  assert (∃ k vs, c0.1 !! name skill = Some k ∧ c0.2 !! name skill = Some vs
                  ∧ k = length (occurrences (name skill) entries)
                  ∧ vs = effectiveness <$> occurrences (name skill) entries
                  ∧ (∀ n, n ≠ name skill → c0.1 !! n = c !! n ∧ c0.2 !! n = e !! n))
    as (k & vs & Hk & Hvs & -> & -> & Hother).
  { subst c0. destruct (decide (occurrences (name skill) entries = [])) as [E|E].
    - rewrite Hc, E. simpl. exists 0, []. rewrite !lookup_insert_eq.
      repeat split; by rewrite lookup_insert_ne.
    - rewrite Hc. simpl.
      exists (length (occurrences (name skill) entries)),
             (effectiveness <$> occurrences (name skill) entries).
      by repeat (split; [done|]). }
  destruct c0 as [c1 e1]. simpl in *. rewrite Hk. simpl. rewrite Hvs. simpl.
  eexists. split; [done|]. intros n. simpl.
  destruct (decide (n = name skill)) as [->|Hn].
  - rewrite !lookup_insert_eq, occurrences_snoc_same.
    destruct (decide (occurrences (name skill) entries ++ [skill] = [])) as [E|_];
      [by destruct (occurrences (name skill) entries)|].
    rewrite length_app, fmap_app. split; reflexivity.
  - rewrite !lookup_insert_ne, occurrences_snoc_other by done.
    destruct (Hother n Hn) as [-> ->]. apply Hst.
Qed.

Lemma for_each_record_skill entries st more :
  tallied entries st →
  ∃ st', for_each record_skill st more = Some st' ∧ tallied (entries ++ more) st'.
Proof.
  revert entries st; induction more as [|skill more IH]; intros entries st Hst.
  - exists st. by rewrite (right_id_L [] (++)).
  - destruct (record_skill_tallied _ _ skill Hst) as (st1 & E1 & H1).
    destruct (IH _ _ H1) as (st' & E' & H').
    exists st'. simpl. rewrite E1. simpl.
    by rewrite <-(assoc_L (++)) in H'.
Qed.

(** The two loops raise nothing and tally every entry of every analysis. *)
Lemma for_each_record_analysis entries st analyses :
  tallied entries st →
  ∃ st', for_each record_analysis st analyses = Some st'
         ∧ tallied (entries ++ all_skills analyses) st'.
Proof.
  revert entries st; induction analyses as [|a analyses IH]; intros entries st Hst.
  - exists st. split; [done|]. change (all_skills []) with (@nil Skill).
    by rewrite (right_id_L [] (++)).
  - destruct (for_each_record_skill _ _ (skills a) Hst) as (st1 & E1 & H1).
    destruct (IH _ _ H1) as (st' & E' & H').
    exists st'. split.
    + change (for_each record_analysis st (a :: analyses))
        with (for_each record_skill st (skills a) ≫= λ acc, for_each record_analysis acc analyses).
      by rewrite E1.
    + unfold all_skills. by rewrite bind_cons, (assoc_L (++)).
Qed.

Lemma count_rated label occ : count label (effectiveness <$> occ) = rated label occ.
Proof.
  unfold count, rated. induction occ as [|skill occ IH]; [done|].
  rewrite fmap_cons. destruct (decide (effectiveness skill = label)) as [E|E].
  - rewrite !filter_cons_True by done. simpl. by rewrite IH.
  - by rewrite !filter_cons_False by done.
Qed.

Lemma rated_le label occ : rated label occ ≤ length occ.
Proof. apply length_filter. Qed.

(** The division of [skill_stat] raises nothing: the high count is at
    most the count. *)
Lemma make_statistic_occurrences occ :
  make_statistic (length occ) (effectiveness <$> occ) = Some (statistic_of occ).
Proof.
  unfold make_statistic, statistic_of. rewrite !count_rated.
  destruct (decide (0 < length occ)) as [Hocc|Hocc]; [|done].
  by rewrite true_divide_le by (done || apply rated_le).
Qed.

Lemma skill_stat_make (e : gmap (list N) (list (list N)))
    (acc : gmap (list N) SkillStatistic) n (k : nat) :
  skill_stat e acc (n, k)
  = vs ← e !! n; stat ← make_statistic k vs; Some (<[n := stat]> acc).
Proof.
  unfold skill_stat, make_statistic. destruct (e !! n) as [vs|]; [|done]. csimpl.
  by destruct (if decide (0 < k) then Float.true_divide (count HIGH vs) k
               else Some Float.zero).
Qed.

(** The loop over [skill_counts.items()] raises nothing when every counted
    name has its list of values, and stores one statistic per name. *)
Lemma for_each_skill_stat (e : gmap (list N) (list (list N)))
    (acc : gmap (list N) SkillStatistic) (items : list (list N * nat)) :
  NoDup items.*1 →
  (∀ n k, (n, k) ∈ items → is_Some (e !! n ≫= make_statistic k)) →
  ∃ stats,
    for_each (skill_stat e) acc items = Some stats
    ∧ ∀ n, stats !! n = match (list_to_map items : gmap (list N) nat) !! n with
                        | Some k => e !! n ≫= make_statistic k
                        | None => acc !! n
                        end.
Proof.
  revert acc; induction items as [|[n0 k0] items IH]; intros acc Hnd He.
  - exists acc. split; [done|]. intros n. by rewrite list_to_map_nil, lookup_empty.
  - rewrite fmap_cons in Hnd. apply NoDup_cons in Hnd as [Hn0 Hnd]. simpl in Hn0.
    destruct (He n0 k0) as [stat Hstat]; [set_solver|].
    destruct (IH (<[n0 := stat]> acc)) as (stats & E & Hstats);
      [done|intros n k Hin; apply (He n k); set_solver|].
    exists stats. split.
    + change (for_each (skill_stat e) acc ((n0, k0) :: items))
        with (skill_stat e acc (n0, k0) ≫= λ acc', for_each (skill_stat e) acc' items).
      rewrite skill_stat_make.
      destruct (e !! n0) as [vs|]; [|done]. csimpl in Hstat. csimpl.
      rewrite Hstat. exact E.
    + intros n. rewrite Hstats, list_to_map_cons.
      destruct (decide (n = n0)) as [->|Hn].
      * rewrite (not_elem_of_list_to_map_1 items n0) by done.
        by rewrite !lookup_insert_eq, Hstat.
      * by rewrite !lookup_insert_ne.
Qed.

Lemma tallied_size entries st :
  tallied entries st → size st.1 = length (remove_dups (name <$> entries)).
Proof.
  intros Hst.
  rewrite <-size_dom, <-(size_list_to_set (C:=gset (list N))) by apply NoDup_remove_dups.
  f_equal. apply set_eq. intros n.
  rewrite elem_of_dom, elem_of_list_to_set, elem_of_remove_dups.
  destruct (Hst n) as [-> _].
  destruct (decide (occurrences n entries = [])) as [E|E].
  - split; [by intros [? ?]|]. intros Hin. by apply occurrences_nil_iff in E.
  - split; [intros _|by eauto].
    destruct (decide (n ∈ name <$> entries)) as [|Hn]; [done|].
    by apply occurrences_nil_iff in Hn.
Qed.

(** [get_skill_summary] raises nothing, and its result in closed form. *)
Lemma get_skill_summary_spec analyses :
  ∃ summary,
    get_skill_summary analyses = Some summary
    ∧ total_calls_analyzed summary = length analyses
    ∧ unique_skills_found summary = length (remove_dups (name <$> all_skills analyses))
    ∧ ∀ n, skill_statistics summary !! n
           = (if decide (occurrences n (all_skills analyses) = []) then None
              else Some (statistic_of (occurrences n (all_skills analyses)))).
Proof.
  destruct (for_each_record_analysis [] (∅, ∅) analyses tallied_empty)
    as ([c e] & E & Hst). simpl in Hst.
  destruct (for_each_skill_stat e ∅ (map_to_list c)) as (stats & Es & Hstats).
  - apply NoDup_fst_map_to_list.
  - intros n k Hin. apply elem_of_map_to_list in Hin.
    destruct (Hst n) as [Hc He]. simpl in Hc, He. rewrite He.
    destruct (decide (occurrences n (all_skills analyses) = [])); [congruence|].
    assert (k = length (occurrences n (all_skills analyses))) as -> by congruence.
    csimpl. by rewrite make_statistic_occurrences.
  - exists (mkSkillSummary (length analyses) (size c) stats).
    split; [|split; [done|split]].
    + unfold get_skill_summary. rewrite E. simpl. by rewrite Es.
    + apply (tallied_size _ _ Hst).
    + intros n. rewrite Hstats, list_to_map_to_list, lookup_empty.
      destruct (Hst n) as [Hc He]. simpl in *. rewrite Hc, He.
      destruct (decide (occurrences n (all_skills analyses) = [])); [done|].
      csimpl. by rewrite make_statistic_occurrences.
Qed.

(** A statistic in the result is the statistic of the occurrences of its
    name, and there is at least one. *)
Lemma skill_statistics_lookup analyses summary n stat :
  get_skill_summary analyses = Some summary →
  skill_statistics summary !! n = Some stat →
  occurrences n (all_skills analyses) ≠ []
  ∧ stat = statistic_of (occurrences n (all_skills analyses)).
Proof.
  destruct (get_skill_summary_spec analyses) as (s & -> & _ & _ & Hs).
  intros [= <-]. rewrite Hs.
  destruct (decide (occurrences n (all_skills analyses) = [])); [done|].
  by intros [= <-].
Qed.

(** The three labels are distinct strings: the buckets count disjoint
    sets of occurrences, together those with a recognized label. *)
Lemma rated_sum occ :
  rated HIGH occ + rated MEDIUM occ + rated LOW occ
  = length (filter (λ skill, recognized (effectiveness skill)) occ).
Proof.
  unfold rated. induction occ as [|skill occ IH]; [done|].
  rewrite !filter_cons.
  destruct (decide (effectiveness skill = HIGH)) as [E1|E1];
  destruct (decide (effectiveness skill = MEDIUM)) as [E2|E2];
  destruct (decide (effectiveness skill = LOW)) as [E3|E3];
  try (rewrite E1 in E2; discriminate E2);
  try (rewrite E1 in E3; discriminate E3);
  try (rewrite E2 in E3; discriminate E3);
  (destruct (decide (recognized (effectiveness skill))) as [R|R];
   [|try (exfalso; apply R; unfold recognized; tauto)]);
  try (destruct R as [?|[?|?]]; done);
  simpl; lia.
Qed.

Lemma length_filter_all {A} (P : A → Prop) `{∀ x, Decision (P x)} (l : list A) :
  length (filter P l) = length l ↔ Forall P l.
Proof.
  induction l as [|x l IH]; [by split; [constructor|]|].
  rewrite filter_cons. pose proof (length_filter P l) as Hle.
  destruct (decide (P x)) as [Hx|Hx]; simpl.
  - rewrite Forall_cons, <-IH. split; [intros [= ?]; done|intros [_ ->]; done].
  - split; [lia|]. intros HF. by apply Forall_cons in HF as [? _].
Qed.

Lemma all_recognized_occurrences n entries :
  Forall (λ skill, recognized (effectiveness skill)) (occurrences n entries)
  ↔ ∀ skill, skill ∈ entries → name skill = n → recognized (effectiveness skill).
Proof.
  rewrite Forall_forall. unfold occurrences. split.
  - intros H skill Hin Hn. apply H, list_elem_of_filter. done.
  - intros H skill Hin. apply list_elem_of_filter in Hin as [Hn Hin]. by apply H.
Qed.

Lemma statistic_of_Permutation occ1 occ2 :
  occ1 ≡ₚ occ2 → statistic_of occ1 = statistic_of occ2.
Proof.
  intros Hp. unfold statistic_of, rated.
  by rewrite !(Permutation_length (filter_Permutation _ _ _ Hp)), (Permutation_length Hp).
Qed.

Lemma all_skills_Permutation analyses1 analyses2 :
  analyses1 ≡ₚ analyses2 → all_skills analyses1 ≡ₚ all_skills analyses2.
Proof. intros Hp. unfold all_skills. by rewrite Hp. Qed.

Lemma remove_dups_length_Permutation (l1 l2 : list (list N)) :
  l1 ≡ₚ l2 → length (remove_dups l1) = length (remove_dups l2).
Proof.
  intros Hp. apply Permutation_length, NoDup_Permutation; try apply NoDup_remove_dups.
  intros x. by rewrite !elem_of_remove_dups, Hp.
Qed.

(** *** The claims about the aggregator *)

(** The [avg_effectiveness] of a statistic is what Python's division
    returns for its high count and its frequency, a float within [2^-53]
    of the quotient of the two. *)
Lemma avg_effectiveness_quotient occ :
  occ ≠ [] →
  Float.true_divide (rated HIGH occ) (length occ)
  = Some (avg_effectiveness (statistic_of occ))
  ∧ (Qabs (Float.float_value (avg_effectiveness (statistic_of occ))
           - (Z.of_nat (rated HIGH occ) # Pos.of_nat (length occ)))
     <= 1 # 9007199254740992)%Q.
Proof.
  intros Hocc. unfold statistic_of. simpl.
  assert (0 < length occ) as Hlen by (destruct occ; simpl; [done|lia]).
  pose proof (rated_le HIGH occ) as Hle.
  rewrite decide_True by done. split.
  - by apply true_divide_le.
  - replace (Pos.of_nat (length occ)) with (Z.to_pos (Z.of_nat (length occ))).
    + apply rounded_error; lia.
    + destruct (length occ) as [|k]; [lia|].
      by rewrite <-Pos.of_nat_succ.
Qed.

(** C1: [get_skill_summary] returns, for every sequence of analyses, a
    summary in which [total_calls_analyzed] is the number of analyses,
    [unique_skills_found] the number of distinct skill names, there is a
    statistic exactly for the names that occur, the [frequency] of a name
    is the number of Skill entries with that exact name, each bucket counts
    the occurrences whose effectiveness is exactly [high], [medium] or
    [low], and [avg_effectiveness] is the high count over the frequency,
    as Python divides two integers: the float nearest to the quotient,
    within [2^-53] of it; scenario B gives the values of the
    specification, [0.5] and [0.0] among them, and the empty sequence the
    empty summary. *)
Theorem get_skill_summary_correct :
  (∀ analyses, ∃ summary,
     get_skill_summary analyses = Some summary
     ∧ total_calls_analyzed summary = length analyses
     ∧ unique_skills_found summary = length (remove_dups (name <$> all_skills analyses))
     ∧ unique_skills_found summary = size (skill_statistics summary)
     ∧ ∀ n,
         let occ := occurrences n (all_skills analyses) in
         ((n ∉ name <$> all_skills analyses) ∧ skill_statistics summary !! n = None)
         ∨ ((n ∈ name <$> all_skills analyses)
            ∧ ∃ stat, skill_statistics summary !! n = Some stat
                ∧ frequency stat = length occ
                ∧ high (effectiveness_distribution stat) = rated HIGH occ
                ∧ medium (effectiveness_distribution stat) = rated MEDIUM occ
                ∧ low (effectiveness_distribution stat) = rated LOW occ
                ∧ Float.true_divide (high (effectiveness_distribution stat))
                                    (frequency stat)
                  = Some (avg_effectiveness stat)
                ∧ (Qabs (Float.float_value (avg_effectiveness stat)
                         - (Z.of_nat (high (effectiveness_distribution stat))
                            # Pos.of_nat (frequency stat)))
                   <= 1 # 9007199254740992)%Q))
  ∧ get_skill_summary scenario_B
    = Some {| total_calls_analyzed := 2;
              unique_skills_found := 2;
              skill_statistics :=
                {[ lit "Rapport" := mkSkillStatistic 2 (mkDistribution 1 0 1) Float.half;
                   lit "Urgency" := mkSkillStatistic 1 (mkDistribution 0 1 0) Float.zero ]} |}
  ∧ (Float.float_value Float.half == 1 # 2)%Q
  ∧ (Float.float_value Float.zero == 0)%Q
  ∧ get_skill_summary []
    = Some {| total_calls_analyzed := 0; unique_skills_found := 0; skill_statistics := ∅ |}.
Proof.
  split; [|split; [|split; [|split]]; vm_compute; reflexivity].
  intros analyses.
  destruct (get_skill_summary_spec analyses) as (summary & E & Ht & Hu & Hs).
  exists summary. repeat (split; [done|]). split.
  - rewrite Hu. rewrite <-size_dom, <-(size_list_to_set (C:=gset (list N)))
      by apply NoDup_remove_dups.
    f_equal. apply set_eq. intros n.
    rewrite elem_of_dom, elem_of_list_to_set, elem_of_remove_dups, Hs.
    destruct (decide (occurrences n (all_skills analyses) = [])) as [En|En].
    + split; [intros Hin; by apply occurrences_nil_iff in En|by intros [? ?]].
    + split; [by eauto|intros _].
      destruct (decide (n ∈ name <$> all_skills analyses)) as [|Hn]; [done|].
      by apply occurrences_nil_iff in Hn.
  - intros n occ. subst occ. rewrite Hs.
    destruct (decide (occurrences n (all_skills analyses) = [])) as [En|En].
    + left. split; [by apply occurrences_nil_iff|done].
    + right. split.
      * destruct (decide (n ∈ name <$> all_skills analyses)) as [|Hn]; [done|].
        by apply occurrences_nil_iff in Hn.
      * eexists. split; [done|]. repeat (split; [done|]).
        by apply avg_effectiveness_quotient.
Qed.

(** C3, as stated, fails: an occurrence with an effectiveness string other
    than the three labels is counted in the frequency and in no bucket.
    One call with [Rapport] rated [unknown]: frequency 1, buckets 0. *)
Lemma unrecognized_label_in_no_bucket :
  ∃ summary stat,
    get_skill_summary
      [mkCallAnalysis (lit "call1") [mkSkill (lit "Rapport") [] [] [] (lit "unknown")] [] []]
    = Some summary
    ∧ skill_statistics summary !! lit "Rapport" = Some stat
    ∧ frequency stat = 1
    ∧ high (effectiveness_distribution stat) + medium (effectiveness_distribution stat)
      + low (effectiveness_distribution stat) = 0
    ∧ high (effectiveness_distribution stat) + medium (effectiveness_distribution stat)
      + low (effectiveness_distribution stat) ≠ frequency stat.
Proof.
  eexists _, _. split; [vm_compute; reflexivity|].
  split; [vm_compute; reflexivity|]. by vm_compute.
Qed.

(** C3 (amended): for a statistic of the result, when every occurrence of
    its skill has one of the effectiveness strings [high], [medium],
    [low], the three buckets sum to the frequency. *)
Theorem distribution_sum_recognized analyses summary n stat :
  get_skill_summary analyses = Some summary →
  skill_statistics summary !! n = Some stat →
  (∀ skill, skill ∈ all_skills analyses → name skill = n →
            recognized (effectiveness skill)) →
  high (effectiveness_distribution stat) + medium (effectiveness_distribution stat)
  + low (effectiveness_distribution stat) = frequency stat.
Proof.
  intros E Hn Hrec. destruct (skill_statistics_lookup _ _ _ _ E Hn) as [_ ->].
  simpl. rewrite rated_sum. by apply length_filter_all, all_recognized_occurrences.
Qed.

Lemma distribution_sum_scenario_B :
  let stat := mkSkillStatistic 2 (mkDistribution 1 0 1) Float.half in
  high (effectiveness_distribution stat) + medium (effectiveness_distribution stat)
  + low (effectiveness_distribution stat) = frequency stat.
Proof.
  intros stat.
  apply (distribution_sum_recognized scenario_B
           {| total_calls_analyzed := 2;
              unique_skills_found := 2;
              skill_statistics :=
                {[ lit "Rapport" := stat;
                   lit "Urgency" := mkSkillStatistic 1 (mkDistribution 0 1 0) Float.zero ]} |}
           (lit "Rapport") stat).
  - vm_compute; reflexivity.
  - vm_compute; reflexivity.
  - intros skill Hin Hname. unfold recognized.
    vm_compute in Hin.
    repeat (apply elem_of_cons in Hin as [->|Hin]; [vm_compute; tauto|]).
    by apply elem_of_nil in Hin.
Defined.

(** C4: an occurrence counts toward the frequency whatever its
    effectiveness string, and toward a bucket only when the string is
    exactly [high], [medium] or [low]; so the buckets sum to the number of
    occurrences with a recognized label, at most the frequency, and to the
    frequency exactly when every occurrence of the skill has a recognized
    label. *)
Theorem distribution_sum_le_frequency analyses summary n stat :
  get_skill_summary analyses = Some summary →
  skill_statistics summary !! n = Some stat →
  let occ := occurrences n (all_skills analyses) in
  let sum := high (effectiveness_distribution stat)
             + medium (effectiveness_distribution stat)
             + low (effectiveness_distribution stat) in
  frequency stat = length occ
  ∧ sum = length (filter (λ skill, recognized (effectiveness skill)) occ)
  ∧ sum ≤ frequency stat
  ∧ (sum = frequency stat
     ↔ ∀ skill, skill ∈ all_skills analyses → name skill = n →
                recognized (effectiveness skill)).
Proof.
  intros E Hn occ sum. subst occ sum.
  destruct (skill_statistics_lookup _ _ _ _ E Hn) as [_ ->].
  simpl. rewrite rated_sum. split; [done|]. split; [done|].
  split; [apply length_filter|].
  by rewrite length_filter_all, all_recognized_occurrences.
Qed.

(** One occurrence rated [high] and one rated [excellent]: frequency 2,
    buckets 1, and the inequality is strict. *)
Lemma distribution_sum_le_frequency_example :
  let stat := mkSkillStatistic 2 (mkDistribution 1 0 0) Float.half in
  high (effectiveness_distribution stat) + medium (effectiveness_distribution stat)
  + low (effectiveness_distribution stat) ≤ frequency stat.
Proof.
  intros stat.
  apply (distribution_sum_le_frequency
           [mkCallAnalysis (lit "call1")
              [mkSkill (lit "Rapport") [] [] [] (lit "high");
               mkSkill (lit "Rapport") [] [] [] (lit "excellent")] [] []]
           {| total_calls_analyzed := 1;
              unique_skills_found := 1;
              skill_statistics := {[ lit "Rapport" := stat ]} |}
           (lit "Rapport") stat).
  - vm_compute; reflexivity.
  - vm_compute; reflexivity.
Defined.

(** C10: a statistic of the result has a frequency of at least one, a
    high count no larger than the frequency, and an [avg_effectiveness]
    that is a float (zero or a positive number, no infinity and no NaN)
    between 0 and 1. *)
Theorem frequency_positive_avg_in_unit_interval analyses summary n stat :
  get_skill_summary analyses = Some summary →
  skill_statistics summary !! n = Some stat →
  1 ≤ frequency stat
  ∧ high (effectiveness_distribution stat) ≤ frequency stat
  ∧ (avg_effectiveness stat = Float.zero
     ∨ ∃ m e, avg_effectiveness stat = S754_finite false m e)
  ∧ (0 <= Float.float_value (avg_effectiveness stat))%Q
  ∧ (Float.float_value (avg_effectiveness stat) <= 1)%Q.
Proof.
  intros E Hn. destruct (skill_statistics_lookup _ _ _ _ E Hn) as [Hocc ->].
  set (occ := occurrences n (all_skills analyses)) in *.
  pose proof (rated_le HIGH occ) as Hle.
  assert (1 ≤ length occ) as Hpos by (destruct occ; simpl; [done|lia]).
  unfold statistic_of. simpl. rewrite decide_True by lia.
  split; [done|]. split; [done|]. split.
  - apply rounded_finite; lia.
  - apply rounded_value_bounds; lia.
Qed.

Lemma frequency_positive_scenario_B :
  let stat := mkSkillStatistic 2 (mkDistribution 1 0 1) Float.half in
  1 ≤ frequency stat
  ∧ high (effectiveness_distribution stat) ≤ frequency stat
  ∧ (avg_effectiveness stat = Float.zero
     ∨ ∃ m e, avg_effectiveness stat = S754_finite false m e)
  ∧ (0 <= Float.float_value (avg_effectiveness stat))%Q
  ∧ (Float.float_value (avg_effectiveness stat) <= 1)%Q.
Proof.
  intros stat.
  apply (frequency_positive_avg_in_unit_interval scenario_B
           {| total_calls_analyzed := 2;
              unique_skills_found := 2;
              skill_statistics :=
                {[ lit "Rapport" := stat;
                   lit "Urgency" := mkSkillStatistic 1 (mkDistribution 0 1 0) Float.zero ]} |}
           (lit "Rapport") stat).
  - vm_compute; reflexivity.
  - vm_compute; reflexivity.
Defined.

(** C8: [get_skill_summary] is a function of its input, and the analyses
    in another order give the same summary: the same totals and, for every
    skill name, the same statistic (frequency, distribution and
    [avg_effectiveness]). *)
Theorem get_skill_summary_Permutation analyses1 analyses2 :
  analyses1 ≡ₚ analyses2 →
  ∃ summary1 summary2,
    get_skill_summary analyses1 = Some summary1
    ∧ get_skill_summary analyses2 = Some summary2
    ∧ total_calls_analyzed summary1 = total_calls_analyzed summary2
    ∧ unique_skills_found summary1 = unique_skills_found summary2
    ∧ (∀ n, skill_statistics summary1 !! n = skill_statistics summary2 !! n)
    ∧ summary1 = summary2
    ∧ get_skill_summary analyses1 = get_skill_summary analyses1.
Proof.
  intros Hp.
  destruct (get_skill_summary_spec analyses1) as ([t1 u1 s1] & E1 & Ht1 & Hu1 & Hs1).
  destruct (get_skill_summary_spec analyses2) as ([t2 u2 s2] & E2 & Ht2 & Hu2 & Hs2).
  simpl in *. pose proof (all_skills_Permutation _ _ Hp) as Hall.
  assert (t1 = t2) as <- by (by rewrite Ht1, Ht2, Hp).
  assert (u1 = u2) as <-.
  { rewrite Hu1, Hu2. apply remove_dups_length_Permutation. by rewrite Hall. }
  assert (∀ n, s1 !! n = s2 !! n) as Hs.
  { intros n. rewrite Hs1, Hs2.
    assert (occurrences n (all_skills analyses1) ≡ₚ occurrences n (all_skills analyses2))
      as Hocc by (unfold occurrences; by rewrite Hall).
    rewrite (statistic_of_Permutation _ _ Hocc).
    destruct (decide (occurrences n (all_skills analyses1) = [])) as [En|En];
    destruct (decide (occurrences n (all_skills analyses2) = [])) as [En'|En']; try done.
    - rewrite En in Hocc. by apply Permutation_nil_l in Hocc.
    - rewrite En' in Hocc. by apply Permutation_nil_r in Hocc. }
  apply map_eq in Hs as <-.
  eexists _, _. by repeat (split; [done|]).
Qed.

Lemma get_skill_summary_Permutation_scenario_B :
  get_skill_summary (reverse scenario_B) = get_skill_summary scenario_B.
Proof.
  destruct (get_skill_summary_Permutation (reverse scenario_B) scenario_B)
    as (summary1 & summary2 & -> & -> & _ & _ & _ & -> & _).
  - apply reverse_Permutation.
  - reflexivity.
Defined.

End AggregatorFacts.

(** ** More about the loader *)

Section LoaderMore.
Import Str Loader.
Implicit Types (s sub p q l m pre rest section content : list N) (x : Sect).

Lemma find_take_None sub s i : sub ≠ [] → find sub s = Some i → find sub (take i s) = None.
Proof.
  intros Hsub E. apply find_Some in E as (_ & Hlen & Hmin).
  apply find_not_found. intros j.
  destruct (decide (j < i)) as [Hj|Hj].
  - destruct (startswith sub (drop j (take i s))) eqn:Ej; [|done].
    apply (startswith_mono _ _ (drop i s)) in Ej.
    rewrite <-drop_app_le, take_drop in Ej by (rewrite length_take; lia).
    by rewrite Hmin in Ej.
  - rewrite drop_ge by (rewrite length_take; lia). by destruct sub.
Qed.

Lemma find_middle_None sub l m r : find sub (l ++ m ++ r) = None → find sub m = None.
Proof.
  intros H. apply find_not_found. intros j.
  destruct (decide (j ≤ length m)) as [Hj|Hj].
  - destruct (startswith sub (drop j m)) eqn:Ej; [|done].
    apply (startswith_mono _ _ r) in Ej.
    apply (find_None _ _ (length l + j)) in H.
    rewrite <-drop_drop, drop_app_length, drop_app_le in H by done. congruence.
  - rewrite drop_ge by lia. destruct sub; [|done].
    by destruct (l ++ m ++ r).
Qed.

Lemma find_longer_None p q s : find p s = None → find (p ++ q) s = None.
Proof.
  intros H. apply find_not_found. intros j.
  by apply startswith_longer_false, find_None.
Qed.

Lemma strip_idempotent s : strip (strip s) = strip s.
Proof. apply strip_fixed; intros c; [apply strip_head|apply strip_last]. Qed.

Lemma id_text_no_DASHES section : find DASHES (id_text section) = None.
Proof.
  unfold id_text. destruct (find DASHES section) as [i|] eqn:E; [|done].
  by apply find_take_None.
Qed.

Lemma section_records_length section :
  length (section_records section) = if contains END_MARKER section then 1 else 0.
Proof. unfold section_records. by destruct (contains END_MARKER section). Qed.

(** A file without an opening marker, the empty file among them, gives no
    record, and nothing is raised. *)
Theorem load_no_marker content :
  find CALL_ID_MARKER content = None →
  load_transcriptions_from_file content = Some [].
Proof.
  intros H. rewrite load_sections_of. unfold sections_of.
  by rewrite split_upto_not_found.
Qed.

Lemma load_no_marker_example :
  load_transcriptions_from_file (lines [lit "Hello world"; lit "---END---"]) = Some [].
Proof. apply load_no_marker. vm_compute; reflexivity. Defined.

(** What stands before the first opening marker is not looked at, whatever
    comes after that marker. *)
Theorem load_ignores_text_before_first_marker pre rest :
  find CALL_ID_MARKER pre = None →
  load_transcriptions_from_file (pre ++ CALL_ID_MARKER ++ rest)
  = load_transcriptions_from_file (CALL_ID_MARKER ++ rest).
Proof.
  intros H. rewrite !load_sections_of. unfold sections_of.
  assert (length (pre ++ CALL_ID_MARKER ++ rest) = S (length pre + 10 + length rest)) as ->.
  { rewrite !length_app. simpl. lia. }
  assert (length (CALL_ID_MARKER ++ rest) = S (10 + length rest)) as ->.
  { rewrite !length_app. simpl. lia. }
  change (CALL_ID_MARKER ++ rest) with ([] ++ CALL_ID_MARKER ++ rest) at 2.
  rewrite split_upto_first_at by (by apply CALL_ID_MARKER_first_at).
  rewrite split_upto_first_at by (vm_compute; reflexivity).
  rewrite !skipn_cons, !drop_0. do 2 f_equal. apply split_upto_enough; [done|lia..].
Qed.

Lemma load_ignores_text_before_first_marker_example :
  load_transcriptions_from_file (lit "Call log, 3 May. ---CALL_ID:C1---Hi---END---")
  = load_transcriptions_from_file (lit "---CALL_ID:C1---Hi---END---").
Proof.
  apply (load_ignores_text_before_first_marker (lit "Call log, 3 May. ") (lit "C1---Hi---END---")).
  vm_compute; reflexivity.
Defined.

(** The loader raises on no text: it gives one record for each section
    that has a closing marker in it, so at most one for each opening
    marker. *)
Theorem load_record_count content :
  ∃ records,
    load_transcriptions_from_file content = Some records
    ∧ length records
      = length (filter (λ section, contains END_MARKER section = true) (sections_of content))
    ∧ length records ≤ length (sections_of content).
Proof.
  rewrite load_sections_of. eexists. split; [done|].
  assert (∀ sections : list (list N),
            length (sections ≫= section_records)
            = length (filter (λ section, contains END_MARKER section = true) sections)) as H.
  { induction sections as [|y sections IH]; [done|].
    rewrite bind_cons, length_app, section_records_length, IH, filter_cons.
    destruct (contains END_MARKER y); [by rewrite decide_True|by rewrite decide_False]. }
  rewrite H. split; [done|apply length_filter].
Qed.

(** The two fields of a record have no whitespace at either end. *)
Theorem load_records_stripped content records r :
  load_transcriptions_from_file content = Some records →
  r ∈ records →
  strip (call_id r) = call_id r ∧ strip (transcript r) = transcript r
  ∧ (∀ c, head (call_id r) = Some c ∨ last (call_id r) = Some c
          ∨ head (transcript r) = Some c ∨ last (transcript r) = Some c →
          isspace c = false).
Proof.
  rewrite load_sections_of. intros [= <-] Hr.
  apply list_elem_of_bind in Hr as (section & Hr & _).
  unfold section_records in Hr.
  destruct (contains END_MARKER section); [|by apply elem_of_nil in Hr].
  apply list_elem_of_singleton in Hr as ->. simpl.
  split; [apply strip_idempotent|]. split; [apply strip_idempotent|].
  intros c [H|[H|[H|H]]]; eauto using strip_head, strip_last.
Qed.

Lemma load_records_stripped_example :
  strip (lit "C1") = lit "C1" ∧ strip (lit "Hi  there") = lit "Hi  there"
  ∧ (∀ c, head (lit "C1") = Some c ∨ last (lit "C1") = Some c
          ∨ head (lit "Hi  there") = Some c ∨ last (lit "Hi  there") = Some c →
          isspace c = false).
Proof.
  apply (load_records_stripped (lit "---CALL_ID: C1 --- Hi  there ---END---")
           [mkRecord (lit "C1") (lit "Hi  there")] (mkRecord (lit "C1") (lit "Hi  there"))).
  - vm_compute; reflexivity.
  - apply list_elem_of_singleton. reflexivity.
Defined.

(** A call identifier never has [---] in it, so none of the two markers
    either. *)
Theorem load_call_id_no_DASHES content records r :
  load_transcriptions_from_file content = Some records →
  r ∈ records →
  find DASHES (call_id r) = None
  ∧ find CALL_ID_MARKER (call_id r) = None
  ∧ find END_MARKER (call_id r) = None.
Proof.
  rewrite load_sections_of. intros [= <-] Hr.
  apply list_elem_of_bind in Hr as (section & Hr & _).
  unfold section_records in Hr.
  destruct (contains END_MARKER section); [|by apply elem_of_nil in Hr].
  apply list_elem_of_singleton in Hr as ->. simpl.
  assert (find DASHES (strip (id_text section)) = None) as H.
  { destruct (strip_decompose (id_text section)) as (l & t & _ & _ & E).
    apply (find_middle_None _ l _ t). rewrite <-E. apply id_text_no_DASHES. }
  split; [done|]. split.
  - by apply (find_longer_None DASHES (lit "CALL_ID:")).
  - by apply (find_longer_None DASHES (lit "END---")).
Qed.

Lemma load_call_id_no_DASHES_example :
  find DASHES (lit "a") = None
  ∧ find CALL_ID_MARKER (lit "a") = None
  ∧ find END_MARKER (lit "a") = None.
Proof.
  apply (load_call_id_no_DASHES (lit "---CALL_ID:a---b------END---")
           [mkRecord (lit "a") (lit "b---")] (mkRecord (lit "a") (lit "b---"))).
  - vm_compute; reflexivity.
  - apply list_elem_of_singleton. reflexivity.
Defined.

(** For well-formed sections followed by any text, the transcript is the
    body and then that text without its [---END---], stripped: what
    follows a closing marker stays in the transcript of its section. *)
Theorem load_keeps_text_after_END_MARKER pre (xs : list Sect) :
  find CALL_ID_MARKER pre = None →
  Forall well_formed xs →
  load_transcriptions_from_file (render pre (sect_text <$> xs))
  = Some ((λ x, mkRecord (strip (sect_id x))
                         (strip (sect_body x ++ replace END_MARKER [] (sect_trail x))))
          <$> xs).
Proof.
  intros Hpre Hwf. rewrite load_render.
  - f_equal. induction xs as [|x xs IH]; [done|].
    apply Forall_cons in Hwf as [(Hid & Hbody & _) Hwf].
    rewrite !fmap_cons, bind_cons, section_records_sect by done.
    simpl. f_equal. by apply IH.
  - constructor; [done|]. rewrite Forall_fmap.
    eapply Forall_impl; [exact Hwf|]. by intros x (_ & _ & H).
Qed.

Lemma load_keeps_text_after_END_MARKER_example :
  load_transcriptions_from_file (lit "---CALL_ID:A---a---END--- b ---END--- c")
  = Some [mkRecord (lit "A") (lit "a b  c")].
Proof.
  apply (eq_trans (y := load_transcriptions_from_file
                          (render [] (sect_text <$>
                             [mkSect (lit "A") (lit "a") (lit " b ---END--- c")]))));
    [vm_compute; reflexivity|].
  rewrite load_keeps_text_after_END_MARKER.
  - vm_compute; reflexivity.
  - vm_compute; reflexivity.
  - repeat constructor; vm_compute; reflexivity.
Defined.

End LoaderMore.

(** ** More about the aggregator *)

Section AggregatorMore.
Import Str Aggregator Summary.
Implicit Types (n label : list N) (entries occ : list Skill)
  (analyses : list CallAnalysis) (summary : SkillSummary).

(** The result of [get_skill_summary], read off the analyses. *)
Lemma get_skill_summary_inv analyses summary :
  get_skill_summary analyses = Some summary →
  total_calls_analyzed summary = length analyses
  ∧ unique_skills_found summary = length (remove_dups (name <$> all_skills analyses))
  ∧ ∀ n, skill_statistics summary !! n
         = (if decide (occurrences n (all_skills analyses) = []) then None
            else Some (statistic_of (occurrences n (all_skills analyses)))).
Proof.
  destruct (get_skill_summary_spec analyses) as (s & -> & H). by intros [= <-].
Qed.

Lemma frequency_of_occurrences analyses summary n :
  get_skill_summary analyses = Some summary →
  frequency_of summary n = length (occurrences n (all_skills analyses)).
Proof.
  intros E. apply get_skill_summary_inv in E as (_ & _ & H).
  unfold frequency_of. rewrite H.
  by destruct (decide (occurrences n (all_skills analyses) = [])) as [->|].
Qed.

Lemma bucket_of_occurrences analyses summary n :
  get_skill_summary analyses = Some summary →
  bucket_of high summary n = rated HIGH (occurrences n (all_skills analyses))
  ∧ bucket_of medium summary n = rated MEDIUM (occurrences n (all_skills analyses))
  ∧ bucket_of low summary n = rated LOW (occurrences n (all_skills analyses)).
Proof.
  intros E. apply get_skill_summary_inv in E as (_ & _ & H).
  unfold bucket_of. rewrite H.
  by destruct (decide (occurrences n (all_skills analyses) = [])) as [->|].
Qed.

Lemma all_skills_app analyses1 analyses2 :
  all_skills (analyses1 ++ analyses2) = all_skills analyses1 ++ all_skills analyses2.
Proof. unfold all_skills. apply bind_app. Qed.

Lemma occurrences_app n entries1 entries2 :
  occurrences n (entries1 ++ entries2) = occurrences n entries1 ++ occurrences n entries2.
Proof. apply filter_app. Qed.

Lemma rated_app label occ1 occ2 :
  rated label (occ1 ++ occ2) = rated label occ1 + rated label occ2.
Proof. unfold rated. by rewrite filter_app, length_app. Qed.

Lemma skill_statistics_dom analyses summary n :
  get_skill_summary analyses = Some summary →
  n ∈ dom (skill_statistics summary) ↔ n ∈ name <$> all_skills analyses.
Proof.
  intros E. apply get_skill_summary_inv in E as (_ & _ & H).
  rewrite elem_of_dom, H.
  destruct (decide (occurrences n (all_skills analyses) = [])) as [En|En].
  - split; [by intros [? ?]|]. intros Hin. by apply occurrences_nil_iff in En.
  - split; [intros _|by eauto].
    destruct (decide (n ∈ name <$> all_skills analyses)) as [|Hn]; [done|].
    by apply occurrences_nil_iff in Hn.
Qed.

(** Two batches one after the other: the calls add up, the skills of the
    whole are those of either part, and for every name the frequency and
    the three buckets are the sums of those of the parts. *)
Theorem get_skill_summary_app analyses1 analyses2 summary1 summary2 summary :
  get_skill_summary analyses1 = Some summary1 →
  get_skill_summary analyses2 = Some summary2 →
  get_skill_summary (analyses1 ++ analyses2) = Some summary →
  total_calls_analyzed summary
  = total_calls_analyzed summary1 + total_calls_analyzed summary2
  ∧ dom (skill_statistics summary)
    = dom (skill_statistics summary1) ∪ dom (skill_statistics summary2)
  ∧ ∀ n,
      frequency_of summary n = frequency_of summary1 n + frequency_of summary2 n
      ∧ bucket_of high summary n = bucket_of high summary1 n + bucket_of high summary2 n
      ∧ bucket_of medium summary n
        = bucket_of medium summary1 n + bucket_of medium summary2 n
      ∧ bucket_of low summary n = bucket_of low summary1 n + bucket_of low summary2 n.
Proof.
  intros E1 E2 E. split; [|split].
  - apply get_skill_summary_inv in E1 as (-> & _), E2 as (-> & _), E as (-> & _).
    apply length_app.
  - apply set_eq. intros n.
    rewrite elem_of_union, !skill_statistics_dom by done.
    rewrite all_skills_app, fmap_app. apply elem_of_app.
  - intros n.
    rewrite !(frequency_of_occurrences _ _ _ E1), !(frequency_of_occurrences _ _ _ E2),
      !(frequency_of_occurrences _ _ _ E).
    destruct (bucket_of_occurrences _ _ n E1) as (-> & -> & ->).
    destruct (bucket_of_occurrences _ _ n E2) as (-> & -> & ->).
    destruct (bucket_of_occurrences _ _ n E) as (-> & -> & ->).
    rewrite all_skills_app, occurrences_app, length_app, !rated_app. done.
Qed.

Lemma get_skill_summary_app_example :
  let summary1 :=
    {| total_calls_analyzed := 1; unique_skills_found := 2;
       skill_statistics :=
         {[ lit "Rapport" := mkSkillStatistic 1 (mkDistribution 1 0 0) Float.one;
            lit "Urgency" := mkSkillStatistic 1 (mkDistribution 0 1 0) Float.zero ]} |} in
  let summary2 :=
    {| total_calls_analyzed := 1; unique_skills_found := 1;
       skill_statistics :=
         {[ lit "Rapport" := mkSkillStatistic 1 (mkDistribution 0 0 1) Float.zero ]} |} in
  let summary :=
    {| total_calls_analyzed := 2; unique_skills_found := 2;
       skill_statistics :=
         {[ lit "Rapport" := mkSkillStatistic 2 (mkDistribution 1 0 1) Float.half;
            lit "Urgency" := mkSkillStatistic 1 (mkDistribution 0 1 0) Float.zero ]} |} in
  total_calls_analyzed summary
  = total_calls_analyzed summary1 + total_calls_analyzed summary2.
Proof.
  intros summary1 summary2 summary.
  apply (get_skill_summary_app (take 1 scenario_B) (drop 1 scenario_B)
           summary1 summary2 summary).
  - vm_compute; reflexivity.
  - vm_compute; reflexivity.
  - vm_compute; reflexivity.
Defined.

Lemma occurrences_other_removed n k entries :
  n ≠ k → occurrences n (filter (λ skill, ¬ name skill = k) entries) = occurrences n entries.
Proof.
  intros Hn. unfold occurrences. induction entries as [|skill entries IH]; [done|].
  rewrite (filter_cons (λ skill, ¬ name skill = k)).
  destruct (decide (¬ name skill = k)) as [Hk|Hk].
  - rewrite !filter_cons, IH. done.
  - rewrite IH, (filter_cons_False _ skill); [done|]. intros <-. by apply Hk.
Qed.

Lemma occurrences_same_removed k entries :
  occurrences k (filter (λ skill, ¬ name skill = k) entries) = [].
Proof.
  unfold occurrences. induction entries as [|skill entries IH]; [done|].
  rewrite (filter_cons (λ skill, ¬ name skill = k)).
  destruct (decide (¬ name skill = k)) as [Hk|Hk]; [|done].
  by rewrite filter_cons_False.
Qed.

(** A dict that holds, for every name, the statistic of its occurrences
    has frequencies that add up to the number of entries. *)
Lemma sum_frequency (m : gmap (list N) SkillStatistic) :
  ∀ entries,
    (∀ n, m !! n = (if decide (occurrences n entries = []) then None
                    else Some (statistic_of (occurrences n entries)))) →
    sum_list_with (λ item : list N * SkillStatistic, frequency item.2) (map_to_list m)
    = length entries.
Proof.
  induction m as [|k v m Hk IH] using map_ind; intros entries H.
  - rewrite map_to_list_empty. destruct entries as [|skill entries]; [done|].
    specialize (H (name skill)). rewrite lookup_empty in H.
    unfold occurrences in H. rewrite filter_cons_True in H by done.
    by destruct (decide _) in H.
  - rewrite (map_to_list_insert m k v Hk). simpl.
    rewrite (IH (filter (λ skill, ¬ name skill = k) entries)).
    + pose proof (H k) as Hv. rewrite lookup_insert_eq in Hv.
      destruct (decide (occurrences k entries = [])); [done|].
      injection Hv as ->. simpl.
      rewrite <-length_app. apply Permutation_length, filter_app_complement.
    + intros n. destruct (decide (n = k)) as [->|Hn].
      * by rewrite Hk, occurrences_same_removed.
      * rewrite occurrences_other_removed by done.
        rewrite <-(H n). by rewrite lookup_insert_ne.
Qed.

Lemma remove_dups_length_le (l : list (list N)) : length (remove_dups l) ≤ length l.
Proof.
  induction l as [|y l IH]; [done|]. simpl.
  destruct (decide_rel elem_of y l); simpl; lia.
Qed.

(** The frequencies of a summary add up to the number of Skill entries of
    the analyses, and there are at most as many skill names as entries. *)
Theorem total_frequency_all_skills analyses summary :
  get_skill_summary analyses = Some summary →
  total_frequency summary = length (all_skills analyses)
  ∧ unique_skills_found summary ≤ length (all_skills analyses).
Proof.
  intros E. apply get_skill_summary_inv in E as (_ & Hu & H). split.
  - by apply sum_frequency.
  - rewrite Hu, <-(length_fmap name (all_skills analyses)).
    apply remove_dups_length_le.
Qed.

Lemma total_frequency_scenario_B :
  total_frequency
    {| total_calls_analyzed := 2;
       unique_skills_found := 2;
       skill_statistics :=
         {[ lit "Rapport" := mkSkillStatistic 2 (mkDistribution 1 0 1) Float.half;
            lit "Urgency" := mkSkillStatistic 1 (mkDistribution 0 1 0) Float.zero ]} |}
  = 3.
Proof.
  apply (total_frequency_all_skills scenario_B). vm_compute; reflexivity.
Defined.

End AggregatorMore.

Section AggregatorEdges.
Import Str Aggregator Summary.
Implicit Types (n : list N) (analyses : list CallAnalysis) (summary : SkillSummary).

(** A call in which no skill was found counts as a call analysed and
    changes nothing else. *)
Theorem analysis_without_skills analyses1 analysis analyses2 summary summary' :
  skills analysis = [] →
  get_skill_summary (analyses1 ++ analysis :: analyses2) = Some summary →
  get_skill_summary (analyses1 ++ analyses2) = Some summary' →
  total_calls_analyzed summary = S (total_calls_analyzed summary')
  ∧ unique_skills_found summary = unique_skills_found summary'
  ∧ skill_statistics summary = skill_statistics summary'.
Proof.
  intros Hs E E'.
  apply get_skill_summary_inv in E as (-> & -> & H), E' as (-> & -> & H').
  assert (all_skills (analyses1 ++ analysis :: analyses2) = all_skills (analyses1 ++ analyses2))
    as Eall.
  { rewrite !all_skills_app. f_equal. unfold all_skills. by rewrite bind_cons, Hs. }
  split; [rewrite !length_app; simpl; lia|]. split; [by rewrite Eall|].
  apply map_eq. intros n. by rewrite H, H', Eall.
Qed.

Lemma analysis_without_skills_example :
  let summary' :=
    {| total_calls_analyzed := 2; unique_skills_found := 2;
       skill_statistics :=
         {[ lit "Rapport" := mkSkillStatistic 2 (mkDistribution 1 0 1) Float.half;
            lit "Urgency" := mkSkillStatistic 1 (mkDistribution 0 1 0) Float.zero ]} |} in
  let summary :=
    {| total_calls_analyzed := 3; unique_skills_found := 2;
       skill_statistics := skill_statistics summary' |} in
  total_calls_analyzed summary = S (total_calls_analyzed summary')
  ∧ unique_skills_found summary = unique_skills_found summary'
  ∧ skill_statistics summary = skill_statistics summary'.
Proof.
  intros summary' summary.
  apply (analysis_without_skills (take 1 scenario_B) (mkCallAnalysis (lit "call0") [] [] [])
           (drop 1 scenario_B)).
  - reflexivity.
  - vm_compute; reflexivity.
  - vm_compute; reflexivity.
Defined.

(** A denominator beyond [2^53] can round a quotient below 1 up to the
    float one. *)
Lemma rounded_one_large : Float.rounded (2 ^ 60 - 1) (2 ^ 60) = Float.one.
Proof. vm_compute; reflexivity. Qed.

(** For a skill that occurs at most [2^52] times, [avg_effectiveness] is
    the float [0.0] exactly when no occurrence is rated [high] (all
    [medium], say), and the float [1.0] exactly when every occurrence
    is. *)
Theorem avg_effectiveness_extremes analyses summary n stat :
  get_skill_summary analyses = Some summary →
  skill_statistics summary !! n = Some stat →
  (Z.of_nat (frequency stat) <= 2 ^ 52)%Z →
  (avg_effectiveness stat = Float.zero ↔ high (effectiveness_distribution stat) = 0)
  ∧ (avg_effectiveness stat = Float.one
     ↔ high (effectiveness_distribution stat) = frequency stat)
  ∧ (high (effectiveness_distribution stat) = frequency stat
     ↔ ∀ skill, skill ∈ all_skills analyses → name skill = n → effectiveness skill = HIGH).
Proof.
  intros E Hn. destruct (skill_statistics_lookup _ _ _ _ E Hn) as [Hocc ->].
  set (occ := occurrences n (all_skills analyses)) in *.
  pose proof (rated_le HIGH occ) as Hle.
  assert (0 < length occ) as Hpos by (destruct occ; simpl; [done|lia]).
  unfold statistic_of. simpl. rewrite decide_True by done. intros Hbound.
  split; [|split].
  - rewrite rounded_zero_iff by lia. lia.
  - rewrite rounded_one_iff by lia. lia.
  - unfold rated. rewrite length_filter_all, Forall_forall. subst occ. unfold occurrences.
    split.
    + intros H skill Hin Hname. apply H, list_elem_of_filter. done.
    + intros H skill Hin. apply list_elem_of_filter in Hin as [Hname Hin]. by apply H.
Qed.

Lemma avg_effectiveness_extremes_example :
  let stat := mkSkillStatistic 1 (mkDistribution 0 1 0) Float.zero in
  avg_effectiveness stat = Float.zero ↔ high (effectiveness_distribution stat) = 0.
Proof.
  intros stat.
  apply (avg_effectiveness_extremes scenario_B
           {| total_calls_analyzed := 2;
              unique_skills_found := 2;
              skill_statistics :=
                {[ lit "Rapport" := mkSkillStatistic 2 (mkDistribution 1 0 1) Float.half;
                   lit "Urgency" := stat ]} |}
           (lit "Urgency") stat).
  - vm_compute; reflexivity.
  - vm_compute; reflexivity.
  - simpl. lia.
Defined.

End AggregatorEdges.

(** ** Batches of calls *)

Section BatchFacts.
Import Str Aggregator Batch.
Context {World : Type}.
Variable analyze_call : list N → list N → World → option CallAnalysis * World.
Implicit Types (calls rest : list (gmap (list N) (list N))) (call : gmap (list N) (list N))
  (results : list CallAnalysis) (w : World).

(** The results so far are carried along and nothing else. *)
Lemma analyze_loop_results results calls w :
  analyze_loop analyze_call results calls w
  = match analyze_multiple_calls analyze_call calls w with
    | (Some more, w') => (Some (results ++ more), w')
    | (None, w') => (None, w')
    end.
Proof.
  unfold analyze_multiple_calls.
  revert results w; induction calls as [|call calls IH]; intros results w; simpl.
  - by rewrite (right_id_L [] (++)).
  - destruct (call !! CALL_ID_KEY) as [id|]; [|done].
    destruct (call !! TRANSCRIPT_KEY) as [t|]; [|done].
    destruct (analyze_call id t w) as [[analysis|] w1]; [|done].
    rewrite (IH (results ++ [analysis])), (IH [analysis]).
    destruct (analyze_loop analyze_call [] calls w1) as [[more|] w2]; [|done].
    by rewrite <-(assoc_L (++)).
Qed.

Lemma analyze_multiple_calls_cons call calls w :
  analyze_multiple_calls analyze_call (call :: calls) w
  = match call !! CALL_ID_KEY, call !! TRANSCRIPT_KEY with
    | Some id, Some t =>
        match analyze_call id t w with
        | (Some analysis, w1) =>
            match analyze_multiple_calls analyze_call calls w1 with
            | (Some more, w2) => (Some (analysis :: more), w2)
            | (None, w2) => (None, w2)
            end
        | (None, w1) => (None, w1)
        end
    | _, _ => (None, w)
    end.
Proof.
  unfold analyze_multiple_calls at 1. simpl.
  destruct (call !! CALL_ID_KEY) as [id|]; [|done].
  destruct (call !! TRANSCRIPT_KEY) as [t|]; [|done].
  destruct (analyze_call id t w) as [[analysis|] w1]; [|done].
  by rewrite analyze_loop_results.
Qed.

(** A batch in two parts: the second part is analysed in the world the
    first part leaves, when the first part raises nothing, and the results
    follow one another. *)
Theorem analyze_multiple_calls_app calls1 calls2 w :
  analyze_multiple_calls analyze_call (calls1 ++ calls2) w
  = match analyze_multiple_calls analyze_call calls1 w with
    | (Some results1, w1) =>
        match analyze_multiple_calls analyze_call calls2 w1 with
        | (Some results2, w2) => (Some (results1 ++ results2), w2)
        | (None, w2) => (None, w2)
        end
    | (None, w1) => (None, w1)
    end.
Proof.
  revert w; induction calls1 as [|call calls1 IH]; intros w.
  - simpl. by destruct (analyze_multiple_calls analyze_call calls2 w) as [[?|] ?].
  - rewrite <-app_comm_cons, !analyze_multiple_calls_cons.
    destruct (call !! CALL_ID_KEY) as [id|]; [|done].
    destruct (call !! TRANSCRIPT_KEY) as [t|]; [|done].
    destruct (analyze_call id t w) as [[analysis|] w1]; [|done].
    rewrite IH.
    destruct (analyze_multiple_calls analyze_call calls1 w1) as [[results1|] w2]; [|done].
    by destruct (analyze_multiple_calls analyze_call calls2 w2) as [[results2|] w3].
Qed.

(** Once a call of the batch has raised, the batch has: the calls after it
    are not analysed, and the analyses made before it are not returned. *)
Theorem analyze_multiple_calls_aborts calls rest w w' :
  analyze_multiple_calls analyze_call calls w = (None, w') →
  analyze_multiple_calls analyze_call (calls ++ rest) w = (None, w').
Proof. intros H. by rewrite analyze_multiple_calls_app, H. Qed.

(** A call without one of its two keys raises before the model is asked
    about it: the world is the one the calls before it leave. *)
Theorem analyze_multiple_calls_missing_key calls call rest results w w' :
  analyze_multiple_calls analyze_call calls w = (Some results, w') →
  call !! CALL_ID_KEY = None ∨ call !! TRANSCRIPT_KEY = None →
  analyze_multiple_calls analyze_call (calls ++ call :: rest) w = (None, w').
Proof.
  intros H Hkey. rewrite analyze_multiple_calls_app, H, analyze_multiple_calls_cons.
  destruct Hkey as [->| ->]; [done|]. by destruct (call !! CALL_ID_KEY).
Qed.

(** A batch that raises nothing gives one analysis for each call, in the
    order of the calls: the one [analyze_call] returned for the two fields
    of that call, in the world the calls before it left. *)
Theorem analyze_multiple_calls_results calls results w w' :
  analyze_multiple_calls analyze_call calls w = (Some results, w') →
  length results = length calls
  ∧ ∀ i call,
      calls !! i = Some call →
      ∃ id t analysis w1 w2,
        call !! CALL_ID_KEY = Some id
        ∧ call !! TRANSCRIPT_KEY = Some t
        ∧ analyze_multiple_calls analyze_call (take i calls) w = (Some (take i results), w1)
        ∧ analyze_call id t w1 = (Some analysis, w2)
        ∧ results !! i = Some analysis.
Proof.
  revert results w; induction calls as [|call0 calls IH]; intros results w H.
  - injection H as <- <-. split; [done|]. intros i call Hi. by destruct i.
  - rewrite analyze_multiple_calls_cons in H.
    destruct (call0 !! CALL_ID_KEY) as [id0|] eqn:Eid; [|done].
    destruct (call0 !! TRANSCRIPT_KEY) as [t0|] eqn:Et; [|done].
    destruct (analyze_call id0 t0 w) as [[analysis0|] w1] eqn:Ea; [|done].
    destruct (analyze_multiple_calls analyze_call calls w1) as [[more|] w2] eqn:Er; [|done].
    injection H as <- <-. destruct (IH _ _ Er) as [Hlen Hi].
    split; [simpl; by rewrite Hlen|].
    intros [|i] call Hcall.
    + injection Hcall as <-. by exists id0, t0, analysis0, w, w1.
    + destruct (Hi i call Hcall) as (id & t & analysis & wa & wb & ? & ? & Htake & ? & ?).
      exists id, t, analysis, wa, wb. repeat (split; [done|]). split; [|done].
      simpl take. by rewrite analyze_multiple_calls_cons, Eid, Et, Ea, Htake.
Qed.

(** The batch of [app.py]: when the analyses raise nothing, neither does
    the summary, and it counts every call of the request. *)
Theorem batch_summary_counts_calls calls analyses w w' :
  analyze_multiple_calls analyze_call calls w = (Some analyses, w') →
  ∃ summary,
    get_skill_summary analyses = Some summary
    ∧ total_calls_analyzed summary = length calls.
Proof.
  intros H. apply analyze_multiple_calls_results in H as [Hlen _].
  destruct (get_skill_summary_spec analyses) as (summary & E & Ht & _).
  exists summary. split; [done|]. by rewrite Ht.
Qed.

End BatchFacts.

Section BatchExamples.
Import Str Aggregator Batch.

Lemma analyze_multiple_calls_aborts_example :
  analyze_multiple_calls counting_analyze_call
    ([call_dict (lit "c1") (lit "hello"); call_dict (lit "c2") []]
     ++ [call_dict (lit "c3") (lit "bye")]) 0
  = (None, 2).
Proof. apply analyze_multiple_calls_aborts. vm_compute; reflexivity. Defined.

Lemma analyze_multiple_calls_missing_key_example :
  analyze_multiple_calls counting_analyze_call
    ([call_dict (lit "c1") (lit "hello")]
     ++ {[ CALL_ID_KEY := lit "c2" ]} :: [call_dict (lit "c3") (lit "bye")]) 0
  = (None, 1).
Proof.
  apply (analyze_multiple_calls_missing_key counting_analyze_call _ _ _
           [mkCallAnalysis (lit "c1") [] [] []]).
  - vm_compute; reflexivity.
  - right. vm_compute; reflexivity.
Defined.

Lemma analyze_multiple_calls_results_example :
  length [mkCallAnalysis (lit "c1") [] [] []; mkCallAnalysis (lit "c2") [] [] []]
  = length [call_dict (lit "c1") (lit "hello"); call_dict (lit "c2") (lit "bye")].
Proof.
  apply (analyze_multiple_calls_results counting_analyze_call
           [call_dict (lit "c1") (lit "hello"); call_dict (lit "c2") (lit "bye")]
           [mkCallAnalysis (lit "c1") [] [] []; mkCallAnalysis (lit "c2") [] [] []] 0 2).
  vm_compute; reflexivity.
Defined.

Lemma batch_summary_counts_calls_example :
  ∃ summary,
    get_skill_summary [mkCallAnalysis (lit "c1") [] [] []; mkCallAnalysis (lit "c2") [] [] []]
    = Some summary
    ∧ total_calls_analyzed summary
      = length [call_dict (lit "c1") (lit "hello"); call_dict (lit "c2") (lit "bye")].
Proof.
  apply (batch_summary_counts_calls counting_analyze_call
           [call_dict (lit "c1") (lit "hello"); call_dict (lit "c2") (lit "bye")]
           [mkCallAnalysis (lit "c1") [] [] []; mkCallAnalysis (lit "c2") [] [] []] 0 2).
  vm_compute; reflexivity.
Defined.

End BatchExamples.

(** ** Loading a directory *)

Section DirectoryFacts.
Import Str Loader Directory.
Variable path_exists : list N → bool.
Variable listdir : list N → option (list (list N)).
Variable join : list N → list N → list N.
Variable read : list N → option (list N).
Implicit Types (directory_path filename : list N) (filenames : list (list N))
  (calls : list TranscriptRecord).

Lemma records_of_load content :
  load_transcriptions_from_file content = Some (records_of content).
Proof. apply load_sections_of. Qed.

Lemma load_entry_txt directory_path calls filename :
  endswith TXT filename = true →
  load_entry join read directory_path calls filename
  = content ← read (join directory_path filename); Some (calls ++ records_of content).
Proof.
  intros E. unfold load_entry, load_file. rewrite E.
  destruct (read (join directory_path filename)) as [content|]; [|done]. csimpl.
  by rewrite records_of_load.
Qed.

Lemma load_entry_other directory_path calls filename :
  endswith TXT filename = false →
  load_entry join read directory_path calls filename = Some calls.
Proof. intros E. unfold load_entry. by rewrite E. Qed.

(** The loop reads the files whose name ends in [.txt], in the order of
    the listing, and no other. *)
Lemma for_each_load_entry directory_path calls filenames :
  for_each (load_entry join read directory_path) calls filenames
  = contents ← mapM (λ filename, read (join directory_path filename)) (txt_files filenames);
    Some (calls ++ (contents ≫= records_of)).
Proof.
  unfold txt_files.
  revert calls; induction filenames as [|filename filenames IH]; intros calls.
  - simpl. by rewrite (right_id_L [] (++)).
  - rewrite filter_cons.
    change (for_each (load_entry join read directory_path) calls (filename :: filenames))
      with (load_entry join read directory_path calls filename
            ≫= λ acc, for_each (load_entry join read directory_path) acc filenames).
    destruct (endswith TXT filename) eqn:E.
    + rewrite decide_True, load_entry_txt by done. csimpl.
      destruct (read (join directory_path filename)) as [content|]; [|done]. csimpl.
      rewrite IH. destruct (mapM _ _) as [contents|]; [|done]. csimpl.
      by rewrite <-(assoc_L (++)).
    + rewrite decide_False, load_entry_other by done. csimpl. apply IH.
Qed.



Lemma load_directory_missing directory_path :
  path_exists directory_path = false →
  load_transcriptions_from_directory path_exists listdir join read directory_path = Some [].
Proof. intros H. unfold load_transcriptions_from_directory. by rewrite H. Qed.

End DirectoryFacts.

Section DirectoryIndependence.
Import Str Loader Directory.

(** What a directory holds beside its [.txt] files makes no difference:
    two file systems that list the same [.txt] names in the same order,
    with the same texts, give the same result. *)
Theorem load_directory_only_txt
    (path_exists : list N → bool) (join : list N → list N → list N)
    (listdir1 listdir2 : list N → option (list (list N)))
    (read1 read2 : list N → option (list N))
    (directory_path : list N) (filenames1 filenames2 : list (list N)) :
  listdir1 directory_path = Some filenames1 →
  listdir2 directory_path = Some filenames2 →
  txt_files filenames1 = txt_files filenames2 →
  (∀ filename, endswith TXT filename = true →
               read1 (join directory_path filename) = read2 (join directory_path filename)) →
  load_transcriptions_from_directory path_exists listdir1 join read1 directory_path
  = load_transcriptions_from_directory path_exists listdir2 join read2 directory_path.
Proof.
  intros H1 H2 Htxt Hread. unfold load_transcriptions_from_directory.
  destruct (path_exists directory_path); [|done].
  rewrite H1, H2. csimpl. rewrite !for_each_load_entry, Htxt. f_equal.
  assert (∀ l : list (list N),
            Forall (λ filename, endswith TXT filename = true) l →
            mapM (λ filename, read1 (join directory_path filename)) l
            = mapM (λ filename, read2 (join directory_path filename)) l) as Hm.
  { induction 1 as [|filename l Hf _ IH]; [done|]. csimpl. rewrite Hread by done.
    destruct (read2 (join directory_path filename)); [|done]. csimpl. by f_equal. }
  apply Hm, Forall_forall. intros filename Hin.
  by apply list_elem_of_filter in Hin as [? _].
Qed.

End DirectoryIndependence.

Section DirectoryExamples.
Import Str Loader Directory.


Lemma load_directory_only_txt_example :
  load_transcriptions_from_directory example_exists example_listdir example_join example_read
    (lit "calls")
  = load_transcriptions_from_directory example_exists
      (λ _, Some [lit "a.txt"; lit "b.txt"]) example_join example_read (lit "calls").
Proof.
  apply (load_directory_only_txt example_exists example_join example_listdir
           (λ _, Some [lit "a.txt"; lit "b.txt"]) example_read example_read (lit "calls")
           [lit "a.txt"; lit "notes.md"; lit "b.txt"] [lit "a.txt"; lit "b.txt"]).
  - vm_compute; reflexivity.
  - reflexivity.
  - vm_compute; reflexivity.
  - reflexivity.
Defined.

End DirectoryExamples.

(** ** The chat history of [app.py] *)

Section AppFacts.
Import App.
Context {A : Type}.
Implicit Types (history pre : list A) (pairs acc : list (A * A)).

Lemma flatten_cons (a b : A) pairs : flatten ((a, b) :: pairs) = a :: b :: flatten pairs.
Proof. reflexivity. Qed.

Lemma flatten_length pairs : length (flatten pairs) = 2 * length pairs.
Proof. induction pairs as [|[a b] pairs IH]; [done|]. rewrite flatten_cons. simpl. lia. Qed.

(** The loop, started at pair [j] of a history: it appends the pairs that
    are left. *)
Lemma convert_loop pairs pre acc j :
  length pre = 2 * j →
  for_each (λ chat_history i,
              first ← (pre ++ flatten pairs) !! i;
              second ← (pre ++ flatten pairs) !! (i + 1);
              Some (chat_history ++ [(first, second)]))
           acc ((λ k, 0 + k * 2) <$> seq j (length pairs))
  = Some (acc ++ pairs).
Proof.
  revert pre acc j; induction pairs as [|[a b] pairs IH]; intros pre acc j Hpre.
  - simpl. by rewrite (right_id_L [] (++)).
  - simpl length. rewrite <-cons_seq, fmap_cons, flatten_cons. simpl for_each.
    rewrite (lookup_app_r pre), (lookup_app_r pre) by lia.
    replace (j * 2 - length pre) with 0 by lia.
    replace (j * 2 + 1 - length pre) with 1 by lia. simpl.
    specialize (IH (pre ++ [a; b]) (acc ++ [(a, b)]) (S j)).
    rewrite <-!(assoc_L (++)) in IH. apply IH.
    rewrite length_app. simpl. lia.
Qed.

Lemma range_even m : range 0 (2 * m) 2 = Some ((λ k, 0 + k * 2) <$> seq 0 m).
Proof.
  unfold range. rewrite decide_False by done. do 3 f_equal.
  replace (2 * m - 0 + (2 - 1)) with (m * 2 + 1) by lia.
  rewrite Nat.div_add_l by done. simpl. lia.
Qed.

(** The pairs of a history written out from pairs are those pairs. *)
Theorem convert_chat_history_flatten pairs :
  convert_chat_history (flatten pairs) = Some pairs.
Proof.
  unfold convert_chat_history. rewrite flatten_length.
  rewrite decide_True by (rewrite Nat.mul_comm; apply Nat.Div0.mod_mul).
  rewrite range_even.
  apply (convert_loop pairs [] [] 0). done.
Qed.

Lemma even_length_flatten history :
  length history mod 2 = 0 → ∃ pairs, history = flatten pairs.
Proof.
  intros H. apply Nat.Div0.div_exact in H.
  remember (length history / 2) as k eqn:Ek. clear Ek.
  revert history H; induction k as [|k IH]; intros history H.
  - destruct history; [|simpl in H; lia]. by exists [].
  - destruct history as [|a [|b history]]; simpl in H; try lia.
    destruct (IH history) as [pairs ->]; [lia|]. by exists ((a, b) :: pairs).
Qed.

(** [convert_chat_history] raises exactly on a history of odd length. *)
Theorem convert_chat_history_is_Some history :
  is_Some (convert_chat_history history) ↔ length history mod 2 = 0.
Proof.
  split.
  - unfold convert_chat_history. destruct (decide (length history mod 2 = 0)); [done|].
    by intros [? ?].
  - intros H. destruct (even_length_flatten history H) as [pairs ->].
    by rewrite convert_chat_history_flatten.
Qed.

(** The pairs it returns are the history, two by two and in its order:
    written out again they give the history back. *)
Theorem convert_chat_history_round_trip history pairs :
  convert_chat_history history = Some pairs →
  flatten pairs = history
  ∧ length history = 2 * length pairs
  ∧ ∀ k turn, pairs !! k = Some turn →
              history !! (2 * k) = Some turn.1 ∧ history !! (2 * k + 1) = Some turn.2.
Proof.
  intros H.
  assert (length history mod 2 = 0) as Heven.
  { apply convert_chat_history_is_Some. by rewrite H. }
  destruct (even_length_flatten history Heven) as [pairs' ->].
  rewrite convert_chat_history_flatten in H. injection H as ->.
  split; [done|]. split; [apply flatten_length|].
  clear Heven. induction pairs as [|[a b] pairs IH]; intros k turn Hk; [done|].
  destruct k as [|k].
  - injection Hk as <-. by rewrite flatten_cons.
  - rewrite flatten_cons. destruct (IH k turn Hk) as [H1 H2].
    replace (2 * S k) with (S (S (2 * k))) by lia. simpl. simpl in H1, H2. done.
Qed.

End AppFacts.

Section AppExamples.
Import App.

Lemma convert_chat_history_round_trip_example :
  flatten [(1, 2); (3, 4)] = [1; 2; 3; 4]
  ∧ length [1; 2; 3; 4] = 2 * length [(1, 2); (3, 4)]
  ∧ ∀ k turn, [(1, 2); (3, 4)] !! k = Some turn →
              [1; 2; 3; 4] !! (2 * k) = Some turn.1
              ∧ [1; 2; 3; 4] !! (2 * k + 1) = Some turn.2.
Proof. apply convert_chat_history_round_trip. vm_compute; reflexivity. Defined.

End AppExamples.

(** ** The test runner *)

Section TestSuiteFacts.
Import Str TestSuite.
Implicit Types (tests : list (list N * Outcome)) (results : list (list N * bool)).

Lemma existsb_leaves tests :
  existsb leaves tests = true ↔ ∃ test, test ∈ tests ∧ test.2 = RaisesBaseException.
Proof.
  rewrite existsb_exists. split.
  - intros (test & Hin%list_elem_of_In & Hl). exists test. split; [done|].
    unfold leaves in Hl. by destruct (test.2).
  - intros (test & Hin%list_elem_of_In & Hl). exists test. split; [done|].
    unfold leaves. by rewrite Hl.
Qed.

Lemma run_tests_acc tests results :
  for_each run_test results tests
  = if existsb leaves tests then None else Some (results ++ (recorded <$> tests)).
Proof.
  revert results; induction tests as [|[name outcome] tests IH]; intros results.
  - simpl. by rewrite (right_id_L [] (++)).
  - change (for_each run_test results ((name, outcome) :: tests))
      with (run_test results (name, outcome) ≫= λ acc, for_each run_test acc tests).
    destruct outcome; unfold run_test; csimpl; [| |reflexivity].
    + rewrite IH. change (existsb leaves ((name, Returns result) :: tests))
        with (existsb leaves tests).
      destruct (existsb leaves tests); [done|]. by rewrite <-(assoc_L (++)).
    + rewrite IH. change (existsb leaves ((name, RaisesException) :: tests))
        with (existsb leaves tests).
      destruct (existsb leaves tests); [done|]. by rewrite <-(assoc_L (++)).
Qed.

Lemma run_tests_spec tests :
  run_tests tests = if existsb leaves tests then None else Some (recorded <$> tests).
Proof. apply (run_tests_acc tests []). Qed.

Lemma passed_le_total results : passed results ≤ total results.
Proof.
  unfold passed, total. induction results as [|[name []] results IH]; simpl; lia.
Qed.

Lemma forallb_passed results :
  forallb (λ r : list N * bool, r.2) results = true ↔ passed results = total results.
Proof.
  induction results as [|[name result] results IH]; [done|].
  pose proof (passed_le_total results) as Hle. unfold passed, total in *. simpl.
  destruct result; simpl.
  - rewrite IH. lia.
  - split; [done|lia].
Qed.

Lemma forallb_recorded tests :
  forallb (λ r : list N * bool, r.2) (recorded <$> tests) = true
  ↔ ∀ test, test ∈ tests → test.2 = Returns true.
Proof.
  induction tests as [|[name outcome] tests IH]; simpl.
  - split; [|done]. intros _ test Hin. by apply elem_of_nil in Hin.
  - rewrite andb_true_iff, IH. split.
    + intros [Ho H] test Hin. apply elem_of_cons in Hin as [->|Hin]; [|by apply H].
      simpl. by destruct outcome as [[]| |].
    + intros H. split; [|intros test Hin; apply H; by right].
      pose proof (H (name, outcome) ltac:(left)) as Ho. simpl in Ho. by rewrite Ho.
Qed.

(** [main] raises exactly when some test raises something that is no
    [Exception]; otherwise every test has one result, and [main] returns
    [True] exactly when the number of tests passed is the number of tests,
    that is when every test function returned [True]: one that returns
    [False] or raises an [Exception] makes it return [False]. *)
Theorem main_true_iff tests :
  (main tests = None ↔ ∃ test, test ∈ tests ∧ test.2 = RaisesBaseException)
  ∧ (main tests = Some true ↔ ∀ test, test ∈ tests → test.2 = Returns true)
  ∧ (main tests = Some false
     ↔ (∀ test, test ∈ tests → test.2 ≠ RaisesBaseException)
       ∧ ∃ test, test ∈ tests ∧ (test.2 = Returns false ∨ test.2 = RaisesException))
  ∧ (∀ results, run_tests tests = Some results →
       total results = length tests
       ∧ passed results ≤ total results
       ∧ (main tests = Some true ↔ passed results = total results)).
Proof.
  unfold main. rewrite run_tests_spec.
  pose proof (existsb_leaves tests) as Hl.
  destruct (existsb leaves tests); csimpl.
  - destruct (proj1 Hl eq_refl) as (bad & Hin & Hbad).
    split; [|split; [|split]].
    + split; [eauto|done].
    + split; [done|]. intros Hall. apply Hall in Hin. congruence.
    + split; [done|]. intros [Hall _]. by apply Hall in Hin.
    + done.
  - assert (∀ test, test ∈ tests → test.2 ≠ RaisesBaseException) as Hnone.
    { intros test Hin Hbad. assert (false = true) as [=]. apply Hl. eauto. }
    split; [|split; [|split]].
    + split; [done|]. intros (test & Hin & Hbad). by apply Hnone in Hin.
    + rewrite <-forallb_recorded. split; [by intros [= ->]|by intros ->].
    + split.
      * intros [= Hf]. split; [done|].
        clear Hl. induction tests as [|[name outcome] tests IH]; [done|].
        simpl in Hf. apply andb_false_iff in Hf as [Hf|Hf].
        -- exists (name, outcome). split; [left|]. simpl.
           destruct outcome as [[]| |]; [done|by left|by right|].
           by destruct (Hnone (name, RaisesBaseException) ltac:(left)).
        -- destruct (IH (λ test Hin, Hnone test ltac:(by right)) Hf)
             as (test & Hin & Ho).
           exists test. split; [by right|done].
      * intros (_ & test & Hin & Ho). f_equal.
        apply not_true_is_false. intros Ht.
        pose proof (proj1 (forallb_recorded tests) Ht test Hin) as Hr.
        destruct Ho; congruence.
    + intros results [= <-]. split; [|split].
      * unfold total. by rewrite length_fmap.
      * apply passed_le_total.
      * rewrite <-forallb_passed. split; [by intros [= ->]|by intros ->].
Qed.

Lemma main_true_iff_example :
  let tests := [(lit "File Loading", Returns true);
                (lit "Data Structures", RaisesException)] in
  let results := [(lit "File Loading", true); (lit "Data Structures", false)] in
  total results = length tests
  ∧ passed results ≤ total results
  ∧ (main tests = Some true ↔ passed results = total results).
Proof.
  intros tests results.
  destruct (main_true_iff tests) as (_ & _ & _ & H).
  apply H. vm_compute; reflexivity.
Defined.

(** A test that calls [sys.exit] ends the run: the tests after it are not
    run and [main] returns nothing. *)
Lemma main_SystemExit :
  main [(lit "File Loading", Returns true);
        (lit "Data Structures", RaisesBaseException);
        (lit "API Endpoints", Returns true)] = None.
Proof. vm_compute; reflexivity. Qed.

End TestSuiteFacts.

(** ** What the summary looks at *)

Section AggregatorFields.
Import Str Aggregator.
Implicit Types (n label : list N) (entries : list Skill) (analyses : list CallAnalysis).

Lemma occurrences_length_pairs n entries :
  length (occurrences n entries)
  = length (filter (λ p : list N * list N, p.1 = n)
                   ((λ skill, (name skill, effectiveness skill)) <$> entries)).
Proof.
  unfold occurrences. induction entries as [|skill entries IH]; [done|].
  rewrite fmap_cons, !filter_cons. simpl.
  destruct (decide (name skill = n)); simpl; by rewrite IH.
Qed.

Lemma rated_occurrences_pairs label n entries :
  rated label (occurrences n entries)
  = length (filter (λ p : list N * list N, p.1 = n ∧ p.2 = label)
                   ((λ skill, (name skill, effectiveness skill)) <$> entries)).
Proof.
  unfold rated, occurrences. induction entries as [|skill entries IH]; [done|].
  rewrite fmap_cons, (filter_cons (λ skill, name skill = n)),
    (filter_cons (λ p : list N * list N, p.1 = n ∧ p.2 = label)). simpl.
  destruct (decide (name skill = n)) as [Hn|Hn].
  - rewrite filter_cons. destruct (decide (effectiveness skill = label)) as [He|He].
    + rewrite decide_True by done. simpl. by rewrite IH.
    + rewrite decide_False by (by intros [_ ?]). done.
  - rewrite decide_False by (by intros [? _]). done.
Qed.

(** The summary depends on the number of analyses and on the names and
    effectiveness strings of their skills, however they are spread over
    the analyses and whatever the other fields hold. *)
Theorem get_skill_summary_only_names_and_labels analyses1 analyses2 :
  length analyses1 = length analyses2 →
  (λ skill, (name skill, effectiveness skill)) <$> all_skills analyses1
  ≡ₚ (λ skill, (name skill, effectiveness skill)) <$> all_skills analyses2 →
  get_skill_summary analyses1 = get_skill_summary analyses2.
Proof.
  intros Hlen Hp.
  destruct (get_skill_summary_spec analyses1) as ([t1 u1 s1] & -> & Ht1 & Hu1 & Hs1).
  destruct (get_skill_summary_spec analyses2) as ([t2 u2 s2] & -> & Ht2 & Hu2 & Hs2).
  simpl in *. f_equal.
  assert (∀ n, length (occurrences n (all_skills analyses1))
               = length (occurrences n (all_skills analyses2))) as Hocc.
  { intros n. rewrite !occurrences_length_pairs. by rewrite Hp. }
  assert (∀ label n, rated label (occurrences n (all_skills analyses1))
                     = rated label (occurrences n (all_skills analyses2))) as Hrated.
  { intros label n. rewrite !rated_occurrences_pairs. by rewrite Hp. }
  assert (t1 = t2) as <- by congruence.
  assert (u1 = u2) as <-.
  { rewrite Hu1, Hu2. apply remove_dups_length_Permutation.
    assert (∀ l : list Skill,
              name <$> l = fst <$> ((λ skill, (name skill, effectiveness skill)) <$> l)) as E.
    { intros l. by rewrite <-list_fmap_compose. }
    by rewrite !E, Hp. }
  f_equal. apply map_eq. intros n. rewrite Hs1, Hs2.
  assert (statistic_of (occurrences n (all_skills analyses1))
          = statistic_of (occurrences n (all_skills analyses2))) as ->.
  { unfold statistic_of. by rewrite Hocc, !Hrated. }
  pose proof (Hocc n) as Hn.
  destruct (decide (occurrences n (all_skills analyses1) = [])) as [E1|E1];
  destruct (decide (occurrences n (all_skills analyses2) = [])) as [E2|E2]; try done.
  - rewrite E1 in Hn. by destruct (occurrences n (all_skills analyses2)).
  - rewrite E2 in Hn. by destruct (occurrences n (all_skills analyses1)).
Qed.

Lemma get_skill_summary_only_names_and_labels_example :
  get_skill_summary scenario_B
  = get_skill_summary
      [ mkCallAnalysis (lit "x") [mkSkill (lit "Rapport") (lit "d") (lit "q") (lit "t") (lit "low")]
          (lit "fine") [lit "insight"];
        mkCallAnalysis (lit "y")
          [ mkSkill (lit "Urgency") [] [] [] (lit "medium");
            mkSkill (lit "Rapport") [] [] [] (lit "high") ] [] [] ].
Proof.
  apply get_skill_summary_only_names_and_labels; [reflexivity|].
  vm_compute.
  apply (Permutation_trans (Permutation_cons_append _ _)). simpl.
  apply perm_swap.
Defined.

End AggregatorFields.

(** ** The two parts of a section *)

Section SectionParts.
Import Str Loader.

(** A section with a closing marker in it is always cut in two at its
    first [---]: the branch that gives the empty transcript when there is
    one part only is never taken. *)
Theorem section_split_two_parts (section : list N) :
  contains END_MARKER section = true →
  ∃ i, find DASHES section = Some i
       ∧ split DASHES section (Some 1)
         = Some [take i section; drop (i + length DASHES) section].
Proof.
  intros H. destruct (separator_found section H) as [i E].
  exists i. split; [done|]. simpl. by rewrite E.
Qed.

Lemma section_split_two_parts_example :
  ∃ i, find DASHES (lit "C1------END---") = Some i
       ∧ split DASHES (lit "C1------END---") (Some 1)
         = Some [take i (lit "C1------END---");
                 drop (i + length DASHES) (lit "C1------END---")].
Proof. apply section_split_two_parts. vm_compute; reflexivity. Defined.

End SectionParts.
